(** * Figma-Context-MCP: the design-tree traversal engine and the retry wrapper

    A shallow embedding of

    - [extractFromDesign], [processNodeWithExtractors], [shouldProcessNode]
      and [shouldTraverseChildren] (the single-pass tree walker),
    - [categorizeError] and [withRetry] of [utils/error-handling.ts], and
    - [fetchWithRetry] with its curl fallback,

    followed by the properties the specification states about them.

    The tree walker is given three times.  [processNodeWithExtractors] is
    the engine over values: a structural recursion over the tree, with
    extractors that return.  [processNodeWithExtractorsMut] tracks what
    extractors assign to the input tree.  [processNodeWithExtractorsRun] is
    the code as it runs, with a call stack of bounded depth and extractors
    that may throw; whenever it returns, the engine over values returns the
    same, so that what is proved of the results of the one holds of the
    results of the other. *)

From Stdlib Require Import String Ascii ZArith List Bool Lia.
From stdpp Require Import base option list gmap strings pretty.
Local Open Scope string_scope.
#[local] Arguments String.append !s1 s2 : simpl nomatch.

(** ** JavaScript values the code manipulates *)

(** Exceptions: the [TypeError] of a property access on [undefined], the
    [RangeError] of a recursion deeper than the call stack, and any other
    value that a callback throws, by its text. *)
Inductive JsError : Type :=
| TypeError (msg : string)
| RangeError (msg : string)
| ThrownValue (text : string).

(** A computation that may throw. *)
Inductive Res (A : Type) : Type :=
| Ok (a : A)
| Throw (e : JsError).
Arguments Ok {A} a.
Arguments Throw {A} e.

#[global] Instance Res_ret : MRet Res := fun _ a => Ok a.
#[global] Instance Res_bind : MBind Res := fun _ _ f m =>
  match m with
  | Ok a => f a
  | Throw e => Throw e
  end.

Definition returns {A} (m : Res A) : Prop := ∃ a, m = Ok a.

(** [s.startsWith(p)] *)
Fixpoint startsWith (s p : string) {struct p} : bool :=
  match p, s with
  | EmptyString, _ => true
  | String a p', String b s' => Ascii.eqb a b && startsWith s' p'
  | String _ _, EmptyString => false
  end.

(** [String.prototype.includes]: [needle] occurs in [s]. *)
Fixpoint includes (needle : string) (s : string) : bool :=
  startsWith s needle
  || match s with
     | EmptyString => false
     | String _ s' => includes needle s'
     end.

(** [String.prototype.toLowerCase], on the ASCII letters. *)
Definition toLowerCase_ascii (c : ascii) : ascii :=
  let n := nat_of_ascii c in
  if (65 <=? n)%nat && (n <=? 90)%nat then ascii_of_nat (n + 32) else c.

Fixpoint toLowerCase (s : string) : string :=
  match s with
  | EmptyString => EmptyString
  | String c s' => String (toLowerCase_ascii c) (toLowerCase s')
  end.

(** [String.prototype.split] for a one-character separator: the fields
    between the occurrences of [sep], in order; never the empty list. *)
Fixpoint split (sep : ascii) (s : string) : list string :=
  match s with
  | EmptyString => [ EmptyString ]
  | String c s' =>
      if Ascii.eqb c sep then EmptyString :: split sep s'
      else match split sep s' with
           | h :: t => String c h :: t
           | [] => [ String c EmptyString ]
           end
  end.

(** [Array.prototype.map] with a callback that may throw: elements are
    visited left to right and the first exception aborts the map. *)
Fixpoint mapRes {A B} (f : A → Res B) (l : list A) : Res (list B) :=
  match l with
  | [] => Ok []
  | x :: l' => y ← f x; ys ← mapRes f l'; Ok (y :: ys)
  end.

(** The chain [xs.filter(p).map(f).filter(r => r !== null)] where the
    callback [f] reads and updates a shared mutable object, threaded here
    as the state [S], and may throw.  The filter is fused into the walk so
    that a recursive [f] is called on elements of [xs] itself;
    [filterMapM_chain] below relates it to the unfused chain. *)
Definition filterMapM {A B S} (p : A → bool) (f : A → S → Res (option B * S))
  : list A → S → Res (list B * S) :=
  fix go (xs : list A) (s : S) : Res (list B * S) :=
    match xs with
    | [] => Ok ([], s)
    | x :: xs' =>
        if p x then
          '(r, s1) ← f x s;
          '(rs, s2) ← go xs' s1;
          Ok (match r with Some b => b :: rs | None => rs end, s2)
        else go xs' s
    end.

(** The unfused [map] step of the chain, over an already filtered list. *)
Fixpoint mapM {A B S} (f : A → S → Res (option B * S)) (xs : list A) (s : S)
  : Res (list (option B) * S) :=
  match xs with
  | [] => Ok ([], s)
  | x :: xs' =>
      '(r, s1) ← f x s;
      '(rs, s2) ← mapM f xs' s1;
      Ok (r :: rs, s2)
  end.

(** The final [.filter(r => r !== null)]. *)
Definition nonNull {B} (rs : list (option B)) : list B := omap (λ r, r) rs.

(** Plain JSON data: the kind-specific payload of an input node (paints,
    text, geometry), the values extractors contribute and the values stored
    in the style table.  The engine never inspects any of them; numbers are
    kept as their JSON text. *)
#[local] Unset Elimination Schemes.
Inductive Json : Type :=
| JNull
| JBool (b : bool)
| JNum (text : string)
| JStr (s : string)
| JArr (items : list Json)
| JObj (props : list (string * Json)).
#[local] Set Elimination Schemes.

(** ** Data model *)

(** One entry of an instance's [overrides] list.  [ov_id] is [None] when the
    entry has no [id] property ([override.id] is [undefined]). *)
Record Override : Type := mkOverride {
  ov_id : option string;
  ov_overriddenFields : list string
}.

(** The value of the [overrides] property when the property is present. *)
Inductive OverridesField : Type :=
| OvNull                          (* null *)
| OvOther                         (* any other value that is not an array *)
| OvArray (l : list Override).

(** The value of the [children] property when the property is present:
    an array of nodes, or, in a tree that is not well formed, [null] or
    another value that is not an array.  Of such a value the engine only
    reads [length]; [hasLength] says that it is a number above 0 (a
    non-empty string: the input is JSON). *)
Inductive ChildrenField (N : Type) : Type :=
| ChNull                          (* null *)
| ChOther (hasLength : bool)      (* any other value that is not an array *)
| ChArray (l : list N).
Arguments ChNull {N}.
Arguments ChOther {N} hasLength.
Arguments ChArray {N} l.

(** A node of the input tree ([FigmaDocumentNode]).  Optional properties are
    [None] when absent (or [undefined]). *)
#[local] Unset Elimination Schemes.
Inductive RawNode : Type := mkRawNode {
  n_id : string;
  n_name : string;
  n_type : string;
  n_visible : option bool;
  n_children : option (ChildrenField RawNode);
  n_overrides : option OverridesField;
  n_payload : list (string * Json)   (* every other property *)
}.
#[local] Set Elimination Schemes.

(** Modelled from the spec: the type [TraversalOptions] of [./types.js],
    which is not under src/: "[maxDepth] (int ...), [nodeFilter] (predicate
    RawNode→bool, exclusionary), [includeFullInstanceData] (bool ...)". *)
Record TraversalOptions : Type := mkOptions {
  maxDepth : option Z;
  nodeFilter : option (RawNode → bool);
  includeFullInstanceData : bool   (* absent and [false] are both falsy *)
}.

(** Modelled from the spec: the type [GlobalVars] of [./types.js], which is
    not under src/: "mapping from a generated style key to a canonical style
    value". *)
Record GlobalVars : Type := mkGlobalVars {
  styles : gmap string Json
}.

(** Modelled from the spec: the type [SimplifiedNode] of [./types.js], which
    is not under src/: "minimally {id, name, kind}, plus any fields
    contributed by extractors, plus an optional ordered sequence of child
    SimplifiedNodes". *)
#[local] Unset Elimination Schemes.
Inductive SimplifiedNode : Type := mkSimplifiedNode {
  s_id : string;
  s_name : string;
  s_type : string;
  s_fields : gmap string Json;
  s_children : option (list SimplifiedNode)
}.
#[local] Set Elimination Schemes.

(** Modelled from the spec: the type [TraversalContext] of [./types.js],
    which is not under src/: "holds the mutable Style Deduplication Table,
    the current depth counter, the immutable options, and the current parent
    reference".  The table is one object shared by reference over the whole
    pass; here its current contents travel with the context. *)
Record TraversalContext : Type := mkContext {
  c_globalVars : GlobalVars;
  c_currentDepth : nat;
  c_options : TraversalOptions;
  c_parent : option RawNode
}.

(** Modelled from the spec: the type [ExtractorFn] of [./types.js], which is
    not under src/: a function of shape "(RawNode, mutable
    SimplifiedNode-in-progress, TraversalContext) → void", "reading one raw
    node and contributing named fields to the output node and/or entries to
    the Style Deduplication Table".  The result is the contributed-fields
    part of the output node and the style table as the call leaves them.
    An [ExtractorFn] returns; [RunExtractorFn] below is an extractor that
    may throw. *)
Definition ExtractorFn : Type :=
  RawNode → SimplifiedNode → TraversalContext → gmap string Json * GlobalVars.

(** Modelled from the spec: [isVisible] of [~/utils/common.js], which is not
    under src/: "a node whose visibility flag is false is excluded". *)
Definition isVisible (node : RawNode) : bool :=
  match n_visible node with
  | Some false => false
  | _ => true
  end.

(** The children of the node when its [children] property is an array, and
    no node otherwise. *)
Definition rawChildren (node : RawNode) : list RawNode :=
  match n_children node with
  | Some (ChArray l) => l
  | _ => []
  end.

(** Modelled from the spec: [hasValue] of [~/utils/identity.js], which is
    not under src/, at the two keys the engine asks for: whether the
    optional property is present on the node, with a value that is not
    [undefined]; [null] counts as a value. *)
Definition hasValue_children (node : RawNode) : bool :=
  bool_decide (is_Some (n_children node)).
Definition hasValue_overrides (node : RawNode) : bool :=
  bool_decide (is_Some (n_overrides node)).

(** ** The traversal engine (src/unnamed/part_000) *)

(** Determine if a node should be processed based on filters. *)
Definition shouldProcessNode (node : RawNode) (options : TraversalOptions) : bool :=
  if negb (isVisible node) then false
  else
    match nodeFilter options with
    | Some f => if negb (f node) then false else true
    | None => true
    end.

(** [hasValue("overrides", node) && Array.isArray(node.overrides) &&
    node.overrides.length > 0] *)
Definition hasOverrides (node : RawNode) : bool :=
  match n_overrides node with
  | Some (OvArray (_ :: _)) => true
  | _ => false
  end.

(** Determine if we should traverse into a node's children. *)
Definition shouldTraverseChildren (node : RawNode) (context : TraversalContext)
    (options : TraversalOptions) : bool :=
  if match maxDepth options with
     | Some d => (d <=? Z.of_nat (c_currentDepth context))%Z
     | None => false
     end
  then false
  else if String.eqb (n_type node) "INSTANCE" && negb (includeFullInstanceData options)
  then (if hasOverrides node then true else false)
  else true.

(** [override.id.includes(';') ? override.id.split(';')[1] : override.id]
    on an id string; an index past the end of the split is [undefined],
    here [None]. *)
Definition overrideTargetId (id : string) : option string :=
  if includes ";" id then split ";" id !! 1%nat else Some id.

(** The callback of the [map] over [node.overrides]: reading [.includes]
    of an absent [id] is a [TypeError]. *)
Definition overrideTarget (override : Override) : Res (option string) :=
  match ov_id override with
  | Some id => Ok (overrideTargetId id)
  | None => Throw (TypeError "Cannot read properties of undefined (reading 'includes')")
  end.

(** [new Set((node.overrides as any[])?.map(...) || [])] *)
Definition overrideNodeIds (node : RawNode) : Res (gset (option string)) :=
  match n_overrides node with
  | Some (OvArray l) => ids ← mapRes overrideTarget l; Ok (list_to_set ids)
  | Some OvNull | None => Ok ∅
  | Some OvOther => Throw (TypeError "node.overrides?.map is not a function")
  end.

(** The predicate of [node.children.filter(...)] for an instance:
    [overrideNodeIds.has(child.id) || hasValue("children", child) &&
    Array.isArray(child.children) && child.children.length > 0]. *)
Definition instanceChildFilter (ids : gset (option string)) (child : RawNode) : bool :=
  bool_decide (Some (n_id child) ∈ ids)
  || hasValue_children child
     && match n_children child with
        | Some (ChArray (_ :: _)) => true
        | _ => false
        end.

(** The predicate selecting [childrenToProcess] among [node.children]. *)
Definition childrenToProcess (node : RawNode) (options : TraversalOptions)
  : Res (RawNode → bool) :=
  if String.eqb (n_type node) "INSTANCE" && negb (includeFullInstanceData options)
     && hasValue_overrides node
  then ids ← overrideNodeIds node; Ok (instanceChildFilter ids)
  else Ok (λ _, true).

(** The exception of walking a [node.children] that has a [length] above 0
    and is not an array, once the set of override targets is built:
    [filter] is not a function. *)
Definition filterOfNonArray (node : RawNode) (options : TraversalOptions) : JsError :=
  if String.eqb (n_type node) "INSTANCE" && negb (includeFullInstanceData options)
     && hasValue_overrides node
  then TypeError "node.children.filter is not a function"
  else TypeError "childrenToProcess.filter is not a function".

Definition baseResult (node : RawNode) : SimplifiedNode :=
  {| s_id := n_id node;
     s_name := n_name node;
     s_type := if String.eqb (n_type node) "VECTOR" then "IMAGE-SVG" else n_type node;
     s_fields := ∅;
     s_children := None |}.

Definition withFields (result : SimplifiedNode) (f : gmap string Json) : SimplifiedNode :=
  {| s_id := s_id result; s_name := s_name result; s_type := s_type result;
     s_fields := f; s_children := s_children result |}.

Definition withChildren (result : SimplifiedNode) (cs : list SimplifiedNode) : SimplifiedNode :=
  {| s_id := s_id result; s_name := s_name result; s_type := s_type result;
     s_fields := s_fields result; s_children := Some cs |}.

Definition withGlobalVars (context : TraversalContext) (g : GlobalVars) : TraversalContext :=
  {| c_globalVars := g; c_currentDepth := c_currentDepth context;
     c_options := c_options context; c_parent := c_parent context |}.

(** [{ ...context, currentDepth: context.currentDepth + 1, parent: node }],
    with the shared style table in its current state [g]. *)
Definition childContext (node : RawNode) (context : TraversalContext) (g : GlobalVars)
  : TraversalContext :=
  {| c_globalVars := g; c_currentDepth := c_currentDepth context + 1;
     c_options := c_options context; c_parent := Some node |}.

(** [for (const extractor of extractors) extractor(node, result, context)] *)
Fixpoint applyExtractors (extractors : list ExtractorFn) (node : RawNode)
    (result : SimplifiedNode) (context : TraversalContext)
  : SimplifiedNode * GlobalVars :=
  match extractors with
  | [] => (result, c_globalVars context)
  | extractor :: rest =>
      let '(f, g) := extractor node result context in
      applyExtractors rest node (withFields result f) (withGlobalVars context g)
  end.

(** Process a single node with all provided extractors in one pass.  The
    second component of the result is the shared style table as the call
    leaves it.  This is the engine over values: the recursion is structural
    and knows no call stack, and the extractors return;
    [processNodeWithExtractorsRun] below has both. *)
Fixpoint processNodeWithExtractors (node : RawNode) (extractors : list ExtractorFn)
    (context : TraversalContext) (options : TraversalOptions) {struct node}
  : Res (option SimplifiedNode * GlobalVars) :=
  if negb (shouldProcessNode node options) then Ok (None, c_globalVars context)
  else
    let '(result, g) := applyExtractors extractors node (baseResult node) context in
    if shouldTraverseChildren node context options then
      match n_children node with
      | Some (ChArray ((_ :: _) as children)) =>
          (* hasValue("children", node) && node.children.length > 0 *)
          keep ← childrenToProcess node options;
          '(cs, g') ← filterMapM
                        (λ child, keep child && shouldProcessNode child options)
                        (λ child g',
                           processNodeWithExtractors child extractors
                             (childContext node context g') options)
                        children g;
          Ok (Some (match cs with
                    | _ :: _ => withChildren result cs
                    | [] => result
                    end), g')
      | Some ChNull =>
          Throw (TypeError "Cannot read properties of null (reading 'length')")
      | Some (ChOther true) =>
          _ ← childrenToProcess node options; Throw (filterOfNonArray node options)
      | Some (ChArray []) | Some (ChOther false) | None => Ok (Some result, g)
      end
    else Ok (Some result, g).

(** The value [extractFromDesign] returns. *)
Record Extracted : Type := mkExtracted {
  r_nodes : list SimplifiedNode;
  r_globalVars : GlobalVars
}.

Definition extractFromDesign (rawNodes : list RawNode) (extractors : list ExtractorFn)
    (options : TraversalOptions) (globalVars : GlobalVars) : Res Extracted :=
  let context :=
    {| c_globalVars := globalVars; c_currentDepth := 0; c_options := options;
       c_parent := None |} in
  '(processedNodes, g) ← filterMapM
      (λ node, shouldProcessNode node options)
      (λ node g, processNodeWithExtractors node extractors (withGlobalVars context g) options)
      rawNodes globalVars;
  Ok {| r_nodes := processedNodes; r_globalVars := g |}.

(** ** The traversal engine over a tree that extractors can write to

    The engine above takes the input tree as a value, which is right for
    extractors of the specified shape, "reading one raw node".  A JavaScript
    extractor holds a reference to its node argument and can assign to it.
    The version below keeps track of that: a call returns, with its
    results, the node as the call leaves it, and the engine goes on with
    that node.  The recursion then follows a tree that changes under it,
    and is bounded by the depth of the call stack, [stack]. *)

(** An extractor that may assign to its node argument: the first component
    of the result is the node as the call leaves it. *)
Definition MutExtractorFn : Type :=
  RawNode → SimplifiedNode → TraversalContext →
  RawNode * (gmap string Json * GlobalVars).

(** The node, with its children sequence as the calls on the children left
    it. *)
Definition withRawChildren (node : RawNode) (children : list RawNode) : RawNode :=
  {| n_id := n_id node; n_name := n_name node; n_type := n_type node;
     n_visible := n_visible node; n_children := Some (ChArray children);
     n_overrides := n_overrides node; n_payload := n_payload node |}.

(** [for (const extractor of extractors) extractor(node, result, context)] *)
Fixpoint applyExtractorsMut (extractors : list MutExtractorFn) (node : RawNode)
    (result : SimplifiedNode) (context : TraversalContext)
  : RawNode * SimplifiedNode * GlobalVars :=
  match extractors with
  | [] => (node, result, c_globalVars context)
  | extractor :: rest =>
      let '(node', (f, g)) := extractor node result context in
      applyExtractorsMut rest node' (withFields result f) (withGlobalVars context g)
  end.

(** The chain [xs.filter(p).map(f).filter(r => r !== null)] when the
    callback may also assign to the element it is called on: the first
    component of the result is the sequence as the walk leaves it. *)
Fixpoint filterMapMut {A B S} (p : A → bool) (f : A → S → Res (A * option B * S))
    (xs : list A) (s : S) : Res (list A * list B * S) :=
  match xs with
  | [] => Ok ([], [], s)
  | x :: xs' =>
      if p x then
        '(x', r, s1) ← f x s;
        '(xs'', rs, s2) ← filterMapMut p f xs' s1;
        Ok (x' :: xs'', match r with Some b => b :: rs | None => rs end, s2)
      else
        '(xs'', rs, s2) ← filterMapMut p f xs' s;
        Ok (x :: xs'', rs, s2)
  end.

Fixpoint processNodeWithExtractorsMut (stack : nat) (node : RawNode)
    (extractors : list MutExtractorFn) (context : TraversalContext)
    (options : TraversalOptions) {struct stack}
  : Res (RawNode * option SimplifiedNode * GlobalVars) :=
  match stack with
  | O => Throw (RangeError "Maximum call stack size exceeded")
  | S stack' =>
      if negb (shouldProcessNode node options) then Ok (node, None, c_globalVars context)
      else
        let '(node, result, g) :=
          applyExtractorsMut extractors node (baseResult node) context in
        if shouldTraverseChildren node context options then
          match n_children node with
          | Some (ChArray ((_ :: _) as children)) =>
              keep ← childrenToProcess node options;
              '(children', cs, g') ← filterMapMut
                  (λ child, keep child && shouldProcessNode child options)
                  (λ child g',
                     processNodeWithExtractorsMut stack' child extractors
                       (childContext node context g') options)
                  children g;
              Ok (withRawChildren node children',
                  Some (match cs with
                        | _ :: _ => withChildren result cs
                        | [] => result
                        end), g')
          | Some ChNull =>
              Throw (TypeError "Cannot read properties of null (reading 'length')")
          | Some (ChOther true) =>
              _ ← childrenToProcess node options; Throw (filterOfNonArray node options)
          | Some (ChArray []) | Some (ChOther false) | None => Ok (node, Some result, g)
          end
        else Ok (node, Some result, g)
  end.

(** [extractFromDesign], returning also the input sequence as the pass
    leaves it. *)
Definition extractFromDesignMut (stack : nat) (rawNodes : list RawNode)
    (extractors : list MutExtractorFn) (options : TraversalOptions)
    (globalVars : GlobalVars) : Res (list RawNode * Extracted) :=
  let context :=
    {| c_globalVars := globalVars; c_currentDepth := 0; c_options := options;
       c_parent := None |} in
  '(rawNodes', processedNodes, g) ← filterMapMut
      (λ node, shouldProcessNode node options)
      (λ node g, processNodeWithExtractorsMut stack node extractors
                   (withGlobalVars context g) options)
      rawNodes globalVars;
  Ok (rawNodes', {| r_nodes := processedNodes; r_globalVars := g |}).

(** The extractor does not assign to its node argument. *)
Definition leavesNode (e : MutExtractorFn) : Prop :=
  ∀ node result context, (e node result context).1 = node.

(** What the extractor contributes. *)
Definition effectOf (e : MutExtractorFn) : ExtractorFn :=
  λ node result context, (e node result context).2.

(** An extractor of the specified shape, as one that may assign. *)
Definition readOnly (e : ExtractorFn) : MutExtractorFn :=
  λ node result context, (node, e node result context).

(** The number of nested calls the tree asks for. *)
Fixpoint height (node : RawNode) : nat :=
  match node with
  | mkRawNode _ _ _ _ cs _ _ =>
      S (match cs with
         | Some (ChArray l) => foldr Nat.max 0 (map height l)
         | _ => 0
         end)
  end.

(** ** The traversal engine as it runs

    The first engine above has no bound on the depth of its recursion, and
    both take extractors that return.  The engine below is the code with
    neither assumption: an extractor may throw, which ends the pass there
    (the engine has no [try]), and the recursion is bounded by the depth of
    the call stack, [stack], counted in nested calls of
    [processNodeWithExtractors].  Whenever it returns, the first engine
    returns the same ([processNodeWithExtractorsRun_sound]); with extractors
    that do not throw and a stack as deep as the tree the two are equal
    ([processNodeWithExtractorsRun_complete]). *)

(** An extractor that may throw. *)
Definition RunExtractorFn : Type :=
  RawNode → SimplifiedNode → TraversalContext → Res (gmap string Json * GlobalVars).

(** No call of the extractor throws. *)
Definition doesNotThrow (e : RunExtractorFn) : Prop :=
  ∀ node result context, returns (e node result context).

(** What the calls of the extractor contribute when they return. *)
Definition returned (e : RunExtractorFn) : ExtractorFn :=
  λ node result context,
    match e node result context with
    | Ok contribution => contribution
    | Throw _ => (s_fields result, c_globalVars context)
    end.

(** An extractor that returns, as one that may throw. *)
Definition returning (e : ExtractorFn) : RunExtractorFn :=
  λ node result context, Ok (e node result context).

(** [for (const extractor of extractors) extractor(node, result, context)]:
    the first exception leaves the loop and the call. *)
Fixpoint applyExtractorsRun (extractors : list RunExtractorFn) (node : RawNode)
    (result : SimplifiedNode) (context : TraversalContext)
  : Res (SimplifiedNode * GlobalVars) :=
  match extractors with
  | [] => Ok (result, c_globalVars context)
  | extractor :: rest =>
      '(f, g) ← extractor node result context;
      applyExtractorsRun rest node (withFields result f) (withGlobalVars context g)
  end.

Fixpoint processNodeWithExtractorsRun (stack : nat) (node : RawNode)
    (extractors : list RunExtractorFn) (context : TraversalContext)
    (options : TraversalOptions) {struct stack}
  : Res (option SimplifiedNode * GlobalVars) :=
  match stack with
  | O => Throw (RangeError "Maximum call stack size exceeded")
  | S stack' =>
      if negb (shouldProcessNode node options) then Ok (None, c_globalVars context)
      else
        '(result, g) ← applyExtractorsRun extractors node (baseResult node) context;
        if shouldTraverseChildren node context options then
          match n_children node with
          | Some (ChArray ((_ :: _) as children)) =>
              keep ← childrenToProcess node options;
              '(cs, g') ← filterMapM
                  (λ child, keep child && shouldProcessNode child options)
                  (λ child g',
                     processNodeWithExtractorsRun stack' child extractors
                       (childContext node context g') options)
                  children g;
              Ok (Some (match cs with
                        | _ :: _ => withChildren result cs
                        | [] => result
                        end), g')
          | Some ChNull =>
              Throw (TypeError "Cannot read properties of null (reading 'length')")
          | Some (ChOther true) =>
              _ ← childrenToProcess node options; Throw (filterOfNonArray node options)
          | Some (ChArray []) | Some (ChOther false) | None => Ok (Some result, g)
          end
        else Ok (Some result, g)
  end.

Definition extractFromDesignRun (stack : nat) (rawNodes : list RawNode)
    (extractors : list RunExtractorFn) (options : TraversalOptions)
    (globalVars : GlobalVars) : Res Extracted :=
  let context :=
    {| c_globalVars := globalVars; c_currentDepth := 0; c_options := options;
       c_parent := None |} in
  '(processedNodes, g) ← filterMapM
      (λ node, shouldProcessNode node options)
      (λ node g, processNodeWithExtractorsRun stack node extractors
                   (withGlobalVars context g) options)
      rawNodes globalVars;
  Ok {| r_nodes := processedNodes; r_globalVars := g |}.

(** ** Error categories and the retry wrapper (src/utils/error-handling.ts) *)

Inductive ErrorType : Type :=
| NETWORK_ERROR | TIMEOUT_ERROR
| API_ERROR | RATE_LIMIT_ERROR | AUTHENTICATION_ERROR
| NOT_FOUND_ERROR | PERMISSION_ERROR
| PARSING_ERROR | VALIDATION_ERROR
| UNKNOWN_ERROR.

#[global] Instance ErrorType_eq_dec : EqDecision ErrorType.
Proof. solve_decision. Defined.

(** [Array.prototype.includes] on a list of error types. *)
Definition includesType (l : list ErrorType) (t : ErrorType) : bool :=
  existsb (λ t', bool_decide (t' = t)) l.

(** The fields of a [FigmaContextError] that decide control flow: its
    message, type, status code and retryable flag.  The [context] record
    (where callers put, among others, the HTTP status of a response and the
    message of a failed curl), the [cause] and the three texts generated
    from them only serve display and logging, and are not kept here: two
    errors that differ in them only are the same value. *)
Record FigmaContextError : Type := mkFigmaContextError {
  fe_message : string;
  fe_type : ErrorType;
  fe_statusCode : option Z;
  fe_retryable : bool
}.

Definition isRetryableByDefault (type : ErrorType) : bool :=
  includesType [NETWORK_ERROR; TIMEOUT_ERROR; RATE_LIMIT_ERROR; API_ERROR] type.

(** [new FigmaContextError({ message, type, statusCode, retryable })]:
    [retryable ?? this.isRetryableByDefault(type)]. *)
Definition newFigmaContextError (message : string) (type : ErrorType)
    (statusCode : option Z) (retryable : option bool) : FigmaContextError :=
  {| fe_message := message;
     fe_type := type;
     fe_statusCode := statusCode;
     fe_retryable := default (isRetryableByDefault type) retryable |}.

(** Any other thrown value that has properties (not [null] or
    [undefined]), as [categorizeError] reads it: its [status] and
    [statusCode] properties, which are numbers when present, and the text
    [error.message || String(error)]. *)
Record ErrorValue : Type := mkErrorValue {
  e_status : option Z;
  e_statusCode : option Z;
  e_text : string
}.

(** Categorizes errors based on status codes and error messages. *)
Definition categorizeError (error : ErrorValue) : FigmaContextError :=
  (* error.status || error.statusCode: 0 is falsy *)
  let statusCode :=
    match e_status error with
    | Some st => if (st =? 0)%Z then e_statusCode error else Some st
    | None => e_statusCode error
    end in
  let message := e_text error in
  let status c := bool_decide (statusCode = Some c) in
  let lower := toLowerCase message in
  if status 401%Z || status 403%Z then
    newFigmaContextError message
      (if status 401%Z then AUTHENTICATION_ERROR else PERMISSION_ERROR) statusCode None
  else if status 404%Z then
    newFigmaContextError message NOT_FOUND_ERROR statusCode None
  else if status 429%Z then
    newFigmaContextError message RATE_LIMIT_ERROR statusCode (Some true)
  else if match statusCode with Some c => (500 <=? c)%Z | None => false end then
    newFigmaContextError message API_ERROR statusCode (Some true)
  else if includes "network" lower || includes "timeout" lower
          || includes "connection" lower then
    newFigmaContextError message
      (if includes "timeout" lower then TIMEOUT_ERROR else NETWORK_ERROR) None None
  else if includes "json" lower || includes "parse" lower || includes "syntax" lower then
    newFigmaContextError message PARSING_ERROR None (Some false)
  else
    newFigmaContextError message UNKNOWN_ERROR statusCode None.

(** [RetryConfig].  [maxAttempts] is taken as an integer: the loop compares
    it with an integer counter, so that a fractional value gives the calls,
    the result and the thrown error of its integer part, and only changes
    the waits; with [NaN], as with 0, no attempt is made.  The three other
    numbers only enter the waits between attempts, which are left out. *)
Record RetryConfig : Type := mkRetryConfig {
  maxAttempts : Z;
  baseDelay : Z;
  maxDelay : Z;
  backoffFactor : Z;
  retryableErrors : list ErrorType
}.

Definition DEFAULT_RETRY_CONFIG : RetryConfig :=
  {| maxAttempts := 3;
     baseDelay := 1000;
     maxDelay := 30000;
     backoffFactor := 2;
     retryableErrors := [NETWORK_ERROR; TIMEOUT_ERROR; RATE_LIMIT_ERROR; API_ERROR] |}.

(** [Partial<RetryConfig>]: [None] for a property that is not given, so
    that the default stays; a property that is given has a value. *)
Record PartialRetryConfig : Type := mkPartialRetryConfig {
  p_maxAttempts : option Z;
  p_baseDelay : option Z;
  p_maxDelay : option Z;
  p_backoffFactor : option Z;
  p_retryableErrors : option (list ErrorType)
}.

Definition noConfig : PartialRetryConfig :=
  {| p_maxAttempts := None; p_baseDelay := None; p_maxDelay := None;
     p_backoffFactor := None; p_retryableErrors := None |}.

(** [{ ...DEFAULT_RETRY_CONFIG, ...config }] *)
Definition finalConfig (config : PartialRetryConfig) : RetryConfig :=
  {| maxAttempts := default (maxAttempts DEFAULT_RETRY_CONFIG) (p_maxAttempts config);
     baseDelay := default (baseDelay DEFAULT_RETRY_CONFIG) (p_baseDelay config);
     maxDelay := default (maxDelay DEFAULT_RETRY_CONFIG) (p_maxDelay config);
     backoffFactor := default (backoffFactor DEFAULT_RETRY_CONFIG) (p_backoffFactor config);
     retryableErrors :=
       default (retryableErrors DEFAULT_RETRY_CONFIG) (p_retryableErrors config) |}.

(** A value thrown by the operation. *)
Inductive Thrown : Type :=
| ThrownFigma (e : FigmaContextError)   (* error instanceof FigmaContextError *)
| ThrownOther (e : ErrorValue)          (* any other value with properties *)
| ThrownNull                            (* throw null *)
| ThrownUndefined.                      (* throw undefined *)

(** How one call of the operation settles. *)
Inductive Settled (T : Type) : Type :=
| Resolved (v : T)
| Rejected (error : Thrown).
Arguments Resolved {T} v.
Arguments Rejected {T} error.

(** How [withRetry] settles: with a result, by throwing [lastError], which
    is [undefined] ([None]) when no attempt was made, or with the exception
    that escapes its [catch] block. *)
Inductive RetryResult (T : Type) : Type :=
| Returned (v : T)
| Threw (lastError : option FigmaContextError)
| ThrewOther (e : JsError).
Arguments Returned {T} v.
Arguments Threw {T} lastError.
Arguments ThrewOther {T} e.

(** [error instanceof FigmaContextError ? error : categorizeError(error, ..)].
    [categorizeError] starts by reading [error.status], which is a
    [TypeError] when the thrown value is [null] or [undefined]. *)
Definition asFigmaContextError (error : Thrown) : Res FigmaContextError :=
  match error with
  | ThrownFigma e => Ok e
  | ThrownOther e => Ok (categorizeError e)
  | ThrownNull => Throw (TypeError "Cannot read properties of null (reading 'status')")
  | ThrownUndefined =>
      Throw (TypeError "Cannot read properties of undefined (reading 'status')")
  end.

(** [lastError.retryable && finalConfig.retryableErrors.includes(lastError.type)] *)
Definition retryableUnder (cfg : RetryConfig) (e : FigmaContextError) : bool :=
  fe_retryable e && includesType (retryableErrors cfg) (fe_type e).

(** The [for] loop of [withRetry].  The operation is an effectful thunk: a
    call reads and changes the world [W].  [remaining] counts the iterations
    that are left, [maxAttempts - attempt + 1]; the waits between attempts
    and the log lines are left out. *)
Fixpoint retryLoop {T W} (operation : W → Settled T * W) (cfg : RetryConfig)
    (remaining : nat) (attempt : Z) (lastError : option FigmaContextError) (w : W)
  : RetryResult T * W :=
  match remaining with
  | O => (Threw lastError, w)           (* loop left: [throw lastError!] *)
  | S remaining' =>
      match operation w with
      | (Resolved result, w') => (Returned result, w')
      | (Rejected error, w') =>
          match asFigmaContextError error with
          | Throw e => (ThrewOther e, w')   (* thrown inside the [catch] block *)
          | Ok lastError =>
              let shouldRetry :=
                (attempt <? maxAttempts cfg)%Z
                && fe_retryable lastError
                && includesType (retryableErrors cfg) (fe_type lastError) in
              if negb shouldRetry then (Threw (Some lastError), w')
              else retryLoop operation cfg remaining' (attempt + 1)%Z (Some lastError) w'
          end
      end
  end.

(** Enhanced retry logic with exponential backoff. *)
Definition withRetry {T W} (operation : W → Settled T * W)
    (config : PartialRetryConfig) (w : W) : RetryResult T * W :=
  let finalConfig := finalConfig config in
  retryLoop operation finalConfig (Z.to_nat (maxAttempts finalConfig)) 1%Z None w.

(** The world after [k] calls of the operation, and how call number
    [k + 1] settles. *)
Fixpoint worldAfter {T W} (operation : W → Settled T * W) (k : nat) (w : W) : W :=
  match k with
  | O => w
  | S k' => worldAfter operation k' (operation w).2
  end.

Definition settles {T W} (operation : W → Settled T * W) (k : nat) (w : W) : Settled T :=
  (operation (worldAfter operation k w)).1.

(** Call number [k + 1] fails with an error that is retryable and whose type
    is in the configured list. *)
Definition failsRetryably {T W} (operation : W → Settled T * W) (cfg : RetryConfig)
    (k : nat) (w : W) : Prop :=
  ∃ error e, settles operation k w = Rejected error
             ∧ asFigmaContextError error = Ok e
             ∧ retryableUnder cfg e = true.

(** The error is retryable and its type is one of [types]. *)
Definition retryableAmong (types : list ErrorType) (e : FigmaContextError) : bool :=
  fe_retryable e && includesType types (fe_type e).

(** Call number [k + 1] fails with a value that categorizes to an error
    that is retryable and whose type is one of [types]. *)
Definition retriedAt {T W} (operation : W → Settled T * W) (types : list ErrorType)
    (k : nat) (w : W) : Prop :=
  ∃ error e, settles operation k w = Rejected error
             ∧ asFigmaContextError error = Ok e
             ∧ retryableAmong types e = true.

(** How [withRetry] ends when call [j + 1] is the one it stops at. *)
Definition outcomeAt {T W} (operation : W → Settled T * W) (j : nat) (w : W)
  : RetryResult T * W :=
  (match settles operation j w with
   | Resolved v => Returned v
   | Rejected error =>
       match asFigmaContextError error with
       | Ok e => Threw (Some e)
       | Throw x => ThrewOther x
       end
   end, worldAfter operation (S j) w).

(** ** Fetching with a curl fallback (src/unnamed/part_001) *)

(** The double quote character. *)
Definition dquote : string := String "034"%char EmptyString.

(** [Array.prototype.join] *)
Fixpoint join (sep : string) (l : list string) : string :=
  match l with
  | [] => EmptyString
  | [x] => x
  | x :: l' => x ++ sep ++ join sep l'
  end.

(** [RequestOptions]: the headers, as [Object.entries] lists them, [None]
    when there are none, and the other properties of [RequestInit], which
    only [fetch] reads. *)
Record RequestOptions : Type := mkRequestOptions {
  o_headers : option (list (string * string));
  o_init : list (string * Json)
}.

(** Converts the headers to an array of curl header arguments. *)
Definition formatHeadersForCurl (headers : option (list (string * string))) : list string :=
  match headers with
  | None => []
  | Some hs => map (λ kv, "-H " ++ dquote ++ kv.1 ++ ": " ++ kv.2 ++ dquote) hs
  end.

Definition curlCommand (url : string) (options : RequestOptions) : string :=
  "curl -s -S --fail-with-body -L "
  ++ join " " (formatHeadersForCurl (o_headers options))
  ++ " " ++ dquote ++ url ++ dquote.

(** [new Error(message)], as [categorizeError] reads it: no status, and the
    text [error.message || String(error)]. *)
Definition newError (message : string) : ErrorValue :=
  {| e_status := None; e_statusCode := None;
     e_text := match message with EmptyString => "Error" | _ => message end |}.

(** How [response.json()] settles. *)
Inductive BodySettled (T : Type) : Type :=
| BodyParsed (data : T)
| BodyRejected (error : ErrorValue).
Arguments BodyParsed {T} data.
Arguments BodyRejected {T} error.

Record Response (T : Type) : Type := mkResponse {
  rsp_ok : bool;
  rsp_status : Z;
  rsp_statusText : string;
  rsp_json : BodySettled T
}.
Arguments mkResponse {T}.
Arguments rsp_ok {T}.
Arguments rsp_status {T}.
Arguments rsp_statusText {T}.
Arguments rsp_json {T}.

(** How [fetch(url, options)] settles. *)
Inductive FetchSettled (T : Type) : Type :=
| FetchResolved (response : Response T)
| FetchRejected (error : ErrorValue).
Arguments FetchResolved {T} response.
Arguments FetchRejected {T} error.

(** How [execAsync(command)] settles. *)
Inductive ExecSettled : Type :=
| ExecResolved (stdout stderr : string)
| ExecRejected (error : ErrorValue).

(** [stderr] mentions [error], [fail], [401], [403] or [404]. *)
Definition stderrAlarming (stderr : string) : bool :=
  let lower := toLowerCase stderr in
  includes "error" lower || includes "fail" lower || includes "401" lower
  || includes "403" lower || includes "404" lower.

(** Non-empty strings are truthy. *)
Definition truthy (s : string) : bool :=
  match s with
  | EmptyString => false
  | String _ _ => true
  end.

Section Fetch.

(** The network and the shell, as effects on a world [W], and
    [JSON.parse], [None] when it throws. *)
Context {T W : Type}.
Variable fetch : string → RequestOptions → W → FetchSettled T * W.
Variable execAsync : string → W → ExecSettled * W.
Variable JSON_parse : string → option T.

(** Attempts to use curl as a fallback when fetch fails. *)
Definition attemptCurlFallback (url : string) (options : RequestOptions)
    (originalError : ErrorValue) (w : W) : Settled T * W :=
  match execAsync (curlCommand url options) w with
  | (ExecResolved stdout stderr, w') =>
      if truthy stderr && (negb (truthy stdout) || stderrAlarming stderr) then
        (Rejected (ThrownFigma
                     (categorizeError (newError ("Curl command failed: " ++ stderr)))), w')
      else if negb (truthy stdout) then
        (Rejected (ThrownFigma
                     (newFigmaContextError "Curl command returned empty response"
                        NETWORK_ERROR None None)), w')
      else
        match JSON_parse stdout with
        | Some data => (Resolved data, w')
        | None =>
            (Rejected (ThrownFigma
                         (newFigmaContextError "Failed to parse JSON response from curl"
                            PARSING_ERROR None None)), w')
        end
  | (ExecRejected curlError, w') =>
      (Rejected (ThrownFigma (categorizeError originalError)), w')
  end.

(** The operation [fetchWithRetry] hands to [withRetry]. *)
Definition fetchAttempt (url : string) (options : RequestOptions) (w : W)
  : Settled T * W :=
  match fetch url options w with
  | (FetchResolved response, w') =>
      if negb (rsp_ok response) then
        (Rejected (ThrownFigma
                     (categorizeError
                        (newError ("HTTP " ++ pretty (rsp_status response) ++ ": "
                                   ++ rsp_statusText response)))), w')
      else
        match rsp_json response with
        | BodyParsed data => (Resolved data, w')
        | BodyRejected fetchError => attemptCurlFallback url options fetchError w'
        end
  | (FetchRejected fetchError, w') => attemptCurlFallback url options fetchError w'
  end.

Definition fetchWithRetry (url : string) (options : RequestOptions) (w : W)
  : RetryResult T * W :=
  withRetry (fetchAttempt url options) noConfig w.

End Fetch.

(** ** Vocabulary of the properties *)

(** [occursAt k root o]: the output node [o] sits [k] levels below the
    output node [root] (a root is at depth 0 of itself). *)
Inductive occursAt : nat → SimplifiedNode → SimplifiedNode → Prop :=
| occurs_here root : occursAt 0 root root
| occurs_below k root cs c o :
    s_children root = Some cs → c ∈ cs → occursAt k c o → occursAt (S k) root o.

(** [pathAt P k root n]: the input node [n] sits [k] levels below the input
    node [root], and [P] holds of every node on the way from [root] down to
    [n], both included. *)
Inductive pathAt (P : RawNode → Prop) : nat → RawNode → RawNode → Prop :=
| path_here root : P root → pathAt P 0 root root
| path_below k root cs c n :
    P root → n_children root = Some (ChArray cs) → c ∈ cs → pathAt P k c n →
    pathAt P (S k) root n.

(** The node passes the visibility gate and the custom filter. *)
Definition retained (options : TraversalOptions) (node : RawNode) : Prop :=
  shouldProcessNode node options = true.

(** The visibility flag of the node is not [false]. *)
Definition shown (node : RawNode) : Prop := n_visible node ≠ Some false.

(** The output node [o] carries the base fields of the input node [n]. *)
Definition baseOf (n : RawNode) (o : SimplifiedNode) : Prop :=
  s_id o = n_id n ∧ s_name o = n_name n
  ∧ s_type o = (if String.eqb (n_type n) "VECTOR" then "IMAGE-SVG" else n_type n).

(** Two extractors do the same on the node [n]. *)
Definition agreeOn (n : RawNode) (e e' : ExtractorFn) : Prop :=
  ∀ result context, e n result context = e' n result context.

(** The children of [node] that are left after the depth check, the
    instance pruning [keep], the visibility gate and the custom filter. *)
Definition selectedChildren (node : RawNode) (context : TraversalContext)
    (options : TraversalOptions) (keep : RawNode → bool) : list RawNode :=
  if shouldTraverseChildren node context options
  then List.filter (λ child, keep child && shouldProcessNode child options)
         (rawChildren node)
  else [].

(** The children sequence of an output node, empty when the field is absent. *)
Definition childrenOf (r : SimplifiedNode) : list SimplifiedNode :=
  default [] (s_children r).

(** The options with another depth bound. *)
Definition withMaxDepth (options : TraversalOptions) (d : option Z) : TraversalOptions :=
  {| maxDepth := d; nodeFilter := nodeFilter options;
     includeFullInstanceData := includeFullInstanceData options |}.

(** The output tree without the fields the extractors contributed. *)
#[local] Unset Elimination Schemes.
Inductive Shape : Type :=
| ShapeNode (id name type : string) (children : option (list Shape)).
#[local] Set Elimination Schemes.

Fixpoint shapeOf (r : SimplifiedNode) : Shape :=
  match r with
  | mkSimplifiedNode i nm t _ cs => ShapeNode i nm t (option_map (map shapeOf) cs)
  end.

(** [truncate k]: cut the tree below depth [k]; the nodes at depth [k] lose
    their children field, the nodes above keep all their children. *)
Fixpoint truncate (k : nat) (t : Shape) : Shape :=
  match t with
  | ShapeNode i nm ty cs =>
      ShapeNode i nm ty
        match k with
        | O => None
        | S k' => option_map (map (truncate k')) cs
        end
  end.

(** Every [children] property in the tree, where present, is an array. *)
Fixpoint childrenAreArrays (node : RawNode) : bool :=
  match node with
  | mkRawNode _ _ _ _ cs _ _ =>
      match cs with
      | None => true
      | Some (ChArray l) => forallb childrenAreArrays l
      | Some _ => false
      end
  end.


(** ** Sample inputs *)

Definition sample_leaf (id : string) (visible : option bool) : RawNode :=
  {| n_id := id; n_name := "leaf " ++ id; n_type := "RECTANGLE"; n_visible := visible;
     n_children := None; n_overrides := None; n_payload := [] |}.

Definition sample_frame (id : string) (visible : option bool) (children : list RawNode)
  : RawNode :=
  {| n_id := id; n_name := "frame " ++ id; n_type := "FRAME"; n_visible := visible;
     n_children := Some (ChArray children); n_overrides := None; n_payload := [] |}.

Definition sample_instance (id : string) (overrides : list Override)
    (children : list RawNode) : RawNode :=
  {| n_id := id; n_name := "instance " ++ id; n_type := "INSTANCE"; n_visible := None;
     n_children := Some (ChArray children); n_overrides := Some (OvArray overrides);
     n_payload := [] |}.

Definition sample_output (id name type : string) (children : option (list SimplifiedNode))
  : SimplifiedNode :=
  {| s_id := id; s_name := name; s_type := type; s_fields := ∅; s_children := children |}.

Definition no_options : TraversalOptions :=
  {| maxDepth := None; nodeFilter := None; includeFullInstanceData := false |}.

Definition empty_table : GlobalVars := {| styles := ∅ |}.

Definition root_context (options : TraversalOptions) : TraversalContext :=
  {| c_globalVars := empty_table; c_currentDepth := 0; c_options := options;
     c_parent := None |}.

(** A frame with a hidden leaf, a hidden frame holding a visible leaf, and
    a visible leaf. *)
Definition sample_hidden : list RawNode :=
  [ sample_frame "1" None
      [ sample_leaf "2" (Some false);
        sample_frame "3" (Some false) [ sample_leaf "4" (Some true) ];
        sample_leaf "5" None ] ].

Definition sample_hidden_out : Extracted :=
  {| r_nodes :=
       [ sample_output "1" "frame 1" "FRAME"
           (Some [ sample_output "5" "leaf 5" "RECTANGLE" None ]) ];
     r_globalVars := empty_table |}.

(** Three levels, walked with [maxDepth = 1] and without bound. *)
Definition sample_deep : list RawNode :=
  [ sample_frame "1" None [ sample_frame "2" None [ sample_leaf "3" None ] ] ].

Definition depth_one : TraversalOptions :=
  {| maxDepth := Some 1%Z; nodeFilter := None; includeFullInstanceData := false |}.

Definition sample_deep_out : Extracted :=
  {| r_nodes :=
       [ sample_output "1" "frame 1" "FRAME"
           (Some [ sample_output "2" "frame 2" "FRAME" None ]) ];
     r_globalVars := empty_table |}.

Definition sample_deep_unbounded : Extracted :=
  {| r_nodes :=
       [ sample_output "1" "frame 1" "FRAME"
           (Some [ sample_output "2" "frame 2" "FRAME"
                     (Some [ sample_output "3" "leaf 3" "RECTANGLE" None ]) ]) ];
     r_globalVars := empty_table |}.

(** An instance with one override, whose target is the child ["X"], a
    non-overridden leaf ["Y"] and a non-overridden frame ["Z"] with a
    child. *)
Definition sample_override : Override :=
  {| ov_id := Some "I1;X"; ov_overriddenFields := ["fills"] |}.

Definition sample_instance_children : list RawNode :=
  [ sample_leaf "X" None; sample_leaf "Y" None;
    sample_frame "Z" None [ sample_leaf "W" None ] ].

Definition sample_overridden : RawNode :=
  sample_instance "1" [ sample_override ] sample_instance_children.

Definition sample_overridden_out : SimplifiedNode :=
  sample_output "1" "instance 1" "INSTANCE"
    (Some [ sample_output "X" "leaf X" "RECTANGLE" None;
            sample_output "Z" "frame Z" "FRAME"
              (Some [ sample_output "W" "leaf W" "RECTANGLE" None ]) ]).

(** The same instance when the override hides its target. *)
Definition sample_hides_target : RawNode :=
  sample_instance "1"
    [ {| ov_id := Some "I1;X"; ov_overriddenFields := ["visible"] |} ]
    [ sample_leaf "X" (Some false); sample_leaf "Y" None ].

(** An instance one of whose override entries has no id. *)
Definition sample_no_id : RawNode :=
  sample_instance "1"
    [ {| ov_id := None; ov_overriddenFields := ["fills"] |} ]
    [ sample_leaf "X" None ].

Definition sample_vector : RawNode :=
  {| n_id := "9"; n_name := "icon"; n_type := "VECTOR"; n_visible := None;
     n_children := None; n_overrides := None; n_payload := [] |}.

(** An extractor that records the name of its node in the style table,
    under the node's id, and contributes nothing to the output node. *)
Definition sample_extractor : MutExtractorFn :=
  λ node result context,
    (node, (s_fields result,
            {| styles := <[n_id node := JStr (n_name node)]>
                           (styles (c_globalVars context)) |})).

Definition sample_hidden_styled : Extracted :=
  {| r_nodes := r_nodes sample_hidden_out;
     r_globalVars :=
       {| styles := <["5" := JStr "leaf 5"]> (<["1" := JStr "frame 1"]> ∅) |} |}.

(** An operation that fails twice with a network error, then succeeds; the
    world counts the calls. *)
Definition sample_operation (calls : nat) : Settled string * nat :=
  (if (calls <? 2)%nat
   then Rejected (ThrownOther {| e_status := None; e_statusCode := None;
                                e_text := "Network down" |})
   else Resolved "data",
   S calls).

(** An operation that always fails with status 404. *)
Definition sample_not_found (calls : nat) : Settled string * nat :=
  (Rejected (ThrownOther {| e_status := Some 404%Z; e_statusCode := None;
                            e_text := "HTTP 404: Not Found" |}),
   S calls).

(** An operation that always fails with status 503. *)
Definition sample_unavailable (calls : nat) : Settled string * nat :=
  (Rejected (ThrownOther {| e_status := Some 503%Z; e_statusCode := None;
                            e_text := "HTTP 503: Service Unavailable" |}),
   S calls).



(** A custom filter that rejects the node ["2"], whatever is below it. *)
Definition sample_skip_two : TraversalOptions :=
  {| maxDepth := None;
     nodeFilter := Some (λ node, negb (String.eqb (n_id node) "2"));
     includeFullInstanceData := false |}.

Definition sample_skip_two_out : Extracted :=
  {| r_nodes := [ sample_output "1" "frame 1" "FRAME" None ];
     r_globalVars := empty_table |}.

(** A pass that keeps the children of instances. *)
Definition full_instances : TraversalOptions :=
  {| maxDepth := None; nodeFilter := None; includeFullInstanceData := true |}.

(** A bound that the three levels of [sample_deep] do not reach. *)
Definition depth_two : TraversalOptions :=
  {| maxDepth := Some 2%Z; nodeFilter := None; includeFullInstanceData := false |}.

(** Every entry of the style table is a string. *)
Definition stylesAreStrings (g : GlobalVars) : Prop :=
  map_Forall (λ _ v, ∃ s, v = JStr s) (styles g).

(** A configuration that allows one attempt, and one that only retries
    rate limits. *)
Definition one_attempt : PartialRetryConfig :=
  {| p_maxAttempts := Some 1%Z; p_baseDelay := None; p_maxDelay := None;
     p_backoffFactor := None; p_retryableErrors := None |}.

Definition only_rate_limits : PartialRetryConfig :=
  {| p_maxAttempts := None; p_baseDelay := None; p_maxDelay := None;
     p_backoffFactor := None; p_retryableErrors := Some [ RATE_LIMIT_ERROR ] |}.

(** An operation that throws [null]. *)
Definition sample_throws_null (calls : nat) : Settled string * nat :=
  (Rejected ThrownNull, S calls).

(** A configuration that allows no attempt. *)
Definition no_attempts : PartialRetryConfig :=
  {| p_maxAttempts := Some 0%Z; p_baseDelay := None; p_maxDelay := None;
     p_backoffFactor := None; p_retryableErrors := None |}.

(** A request with one header. *)
Definition sample_request : RequestOptions :=
  {| o_headers := Some [ ("X-Figma-Token", "secret") ]; o_init := [] |}.

(** A [fetch] that is answered 503; the world counts the effects. *)
Definition sample_fetch_unavailable (url : string) (options : RequestOptions) (w : nat)
  : FetchSettled string * nat :=
  (FetchResolved {| rsp_ok := false; rsp_status := 503;
                    rsp_statusText := "Service Unavailable";
                    rsp_json := BodyParsed "{}" |},
   S w).

(** A [fetch] that rejects. *)
Definition sample_fetch_rejects (url : string) (options : RequestOptions) (w : nat)
  : FetchSettled string * nat :=
  (FetchRejected {| e_status := None; e_statusCode := None; e_text := "fetch failed" |},
   S w).

(** A curl that prints an object and a progress note. *)
Definition sample_exec (command : string) (w : nat) : ExecSettled * nat :=
  (ExecResolved "{}" "100% done", S w).

(** A shell without curl. *)
Definition sample_exec_rejects (command : string) (w : nat) : ExecSettled * nat :=
  (ExecRejected {| e_status := None; e_statusCode := None;
                   e_text := "curl: command not found" |},
   S w).

(** A parser that reads the empty object only; the data is its text. *)
Definition sample_parse (text : string) : option string :=
  if String.eqb text "{}" then Some text else None.

(** ** Vocabulary of the further properties *)

(** Two computations end alike: both throw the same exception, or both
    return, with results related by [Q]. *)
Definition endAlike {A A' S S'} (Q : A → A' → Prop)
    (m : Res (A * S)) (m' : Res (A' * S')) : Prop :=
  match m, m' with
  | Ok (a, _), Ok (a', _) => Q a a'
  | Throw e, Throw e' => e = e'
  | _, _ => False
  end.

(** The output nodes of a pass without what the extractors contributed,
    or the exception of the pass. *)
Definition shapesOf (m : Res Extracted) : Res (list Shape) :=
  match m with
  | Ok out => Ok (map shapeOf (r_nodes out))
  | Throw e => Throw e
  end.

(** [embeds n o]: the output tree [o] is the input tree [n] with some
    subtrees deleted: [o] carries the base fields of [n], and its children
    are, in order, the images of some of the children of [n]. *)
#[local] Unset Elimination Schemes.
Inductive embeds : RawNode → SimplifiedNode → Prop :=
| embeds_node n o kept :
    baseOf n o →
    sublist kept (rawChildren n) →
    Forall2 embeds kept (childrenOf o) →
    embeds n o.
#[local] Set Elimination Schemes.

(** The number of nodes of an input tree and of an output tree. *)
Fixpoint rawSize (node : RawNode) : nat :=
  match node with
  | mkRawNode _ _ _ _ cs _ _ =>
      S (match cs with
         | Some (ChArray l) => foldr Nat.add 0 (map rawSize l)
         | _ => 0
         end)
  end.

Fixpoint outSize (r : SimplifiedNode) : nat :=
  match r with
  | mkSimplifiedNode _ _ _ _ cs =>
      S (match cs with
         | Some l => foldr Nat.add 0 (map outSize l)
         | None => 0
         end)
  end.

(** No node of the tree is of type INSTANCE. *)
Fixpoint noInstance (node : RawNode) : bool :=
  match node with
  | mkRawNode _ _ t _ cs _ _ =>
      negb (String.eqb t "INSTANCE")
      && match cs with
         | Some (ChArray l) => forallb noInstance l
         | _ => true
         end
  end.

(** [fitsIn k t]: the tree [t] has no node below depth [k], and no empty
    children sequence. *)
Fixpoint fitsIn (k : nat) (t : Shape) {struct t} : bool :=
  match t with
  | ShapeNode _ _ _ cs =>
      match cs, k with
      | None, _ => true
      | Some [], _ => false
      | Some (_ :: _), O => false
      | Some ((_ :: _) as l), S k' => forallb (fitsIn k') l
      end
  end.

(** [error.status || error.statusCode] *)
Definition statusOf (error : ErrorValue) : option Z :=
  match e_status error with
  | Some st => if (st =? 0)%Z then e_statusCode error else Some st
  | None => e_statusCode error
  end.

(** The text mentions [network], [timeout] or [connection], in any case. *)
Definition mentionsTransient (text : string) : bool :=
  let lower := toLowerCase text in
  includes "network" lower || includes "timeout" lower || includes "connection" lower.

(** The value [fetch] or [response.json()] rejected with in the world [w],
    if any. *)
Definition fetchErrorAt {T W} (fetch : string → RequestOptions → W → FetchSettled T * W)
    (url : string) (options : RequestOptions) (w : W) : option ErrorValue :=
  match (fetch url options w).1 with
  | FetchRejected e => Some e
  | FetchResolved response =>
      if rsp_ok response
      then match rsp_json response with
           | BodyRejected e => Some e
           | BodyParsed _ => None
           end
      else None
  end.

(** * Properties *)

(** ** Induction over trees *)

Lemma RawNode_ind' (P : RawNode → Prop) :
  (∀ node, (∀ cs, n_children node = Some (ChArray cs) → Forall P cs) → P node) →
  ∀ node, P node.
Proof.
  intros step. fix IH 1. intros [i nm t v cs o pl]. apply step. simpl.
  intros cs' E. destruct cs as [[| |l]|]; try discriminate. injection E as <-.
  revert l. fix IHl 1. intros [|c l]; constructor; [apply IH | apply IHl].
Qed.

(** ** The list walk *)

Lemma bind_Ok {A B} (m : Res A) (f : A → Res B) b :
  m ≫= f = Ok b → ∃ a, m = Ok a ∧ f a = Ok b.
Proof. destruct m as [a|e]; simpl; [eauto | discriminate]. Qed.

Lemma Ok_bind {A B} (a : A) (f : A → Res B) : Ok a ≫= f = f a.
Proof. reflexivity. Qed.

Ltac inv_bind H :=
  let a := fresh "a" in let Ha := fresh "Ha" in
  apply bind_Ok in H; destruct H as (a & Ha & H).

Lemma filterMapM_cons {A B S} (p : A → bool) (f : A → S → Res (option B * S)) x xs s :
  filterMapM p f (x :: xs) s =
  if p x then
    '(r, s1) ← f x s;
    '(rs, s2) ← filterMapM p f xs s1;
    Ok (match r with Some b => b :: rs | None => rs end, s2)
  else filterMapM p f xs s.
Proof. reflexivity. Qed.

(** The fused walk is the chain [filter], [map], [filter non-null] of the
    source. *)
Lemma filterMapM_chain {A B S} (p : A → bool) (f : A → S → Res (option B * S)) xs s :
  filterMapM p f xs s = ('(rs, s') ← mapM f (List.filter p xs) s; Ok (nonNull rs, s')).
Proof.
  revert s. induction xs as [|x xs IH]; intros s; [reflexivity|].
  rewrite filterMapM_cons. simpl List.filter. destruct (p x); [|apply IH].
  simpl. destruct (f x s) as [[r s1]|e]; simpl; [|reflexivity].
  rewrite IH. destruct (mapM f (List.filter p xs) s1) as [[rs s2]|e]; simpl; [|reflexivity].
  destruct r; reflexivity.
Qed.

(** Every result of the walk comes from an element that passed the filter. *)
Lemma filterMapM_Forall {A B S} (p : A → bool) (f : A → S → Res (option B * S))
    (Q : B → Prop) xs :
  Forall (λ x, p x = true → ∀ s r s', f x s = Ok (Some r, s') → Q r) xs →
  ∀ s rs s', filterMapM p f xs s = Ok (rs, s') → Forall Q rs.
Proof.
  induction 1 as [|x xs Hx _ IH]; intros s rs s' E.
  - injection E as <- <-. constructor.
  - rewrite filterMapM_cons in E. destruct (p x) eqn:Hp; [|eauto].
    inv_bind E. destruct a as [r s1]. inv_bind E. destruct a as [rs1 s2].
    injection E as <- <-. specialize (IH _ _ _ Ha0).
    destruct r; [constructor; eauto | assumption].
Qed.

(** When the callback never answers [null], the results are, in order, the
    images of the elements that passed the filter. *)
Lemma filterMapM_Forall2 {A B S} (p : A → bool) (f : A → S → Res (option B * S))
    (R : A → B → Prop) xs :
  Forall (λ x, p x = true → ∀ s o s', f x s = Ok (o, s') → ∃ r, o = Some r ∧ R x r) xs →
  ∀ s rs s', filterMapM p f xs s = Ok (rs, s') → Forall2 R (List.filter p xs) rs.
Proof.
  induction 1 as [|x xs Hx _ IH]; intros s rs s' E.
  - injection E as <- <-. constructor.
  - rewrite filterMapM_cons in E. simpl List.filter.
    destruct (p x) eqn:Hp; [|eauto].
    inv_bind E. destruct a as [o s1]. inv_bind E. destruct a as [rs1 s2].
    injection E as <- <-. destruct (Hx eq_refl _ _ _ Ha) as (r & -> & HR).
    constructor; eauto.
Qed.

(** The walk returns as soon as the callback returns on every element that
    passes the filter. *)
Lemma filterMapM_returns {A B S} (p : A → bool) (f : A → S → Res (option B * S)) xs :
  Forall (λ x, p x = true → ∀ s, returns (f x s)) xs →
  ∀ s, returns (filterMapM p f xs s).
Proof.
  induction 1 as [|x xs Hx _ IH]; intros s.
  - eexists; reflexivity.
  - rewrite filterMapM_cons. destruct (p x) eqn:Hp; [|apply IH].
    destruct (Hx eq_refl s) as [[r s1] ->]. simpl.
    destruct (IH s1) as [[rs s2] ->]. simpl. eexists; reflexivity.
Qed.

(** ** One step of [processNodeWithExtractors] *)

Lemma processNodeWithExtractors_eq node extractors context options :
  processNodeWithExtractors node extractors context options =
  if negb (shouldProcessNode node options) then Ok (None, c_globalVars context)
  else
    let '(result, g) := applyExtractors extractors node (baseResult node) context in
    if shouldTraverseChildren node context options then
      match n_children node with
      | Some (ChArray ((_ :: _) as children)) =>
          keep ← childrenToProcess node options;
          '(cs, g') ← filterMapM
                        (λ child, keep child && shouldProcessNode child options)
                        (λ child g',
                           processNodeWithExtractors child extractors
                             (childContext node context g') options)
                        children g;
          Ok (Some (match cs with
                    | _ :: _ => withChildren result cs
                    | [] => result
                    end), g')
      | Some ChNull =>
          Throw (TypeError "Cannot read properties of null (reading 'length')")
      | Some (ChOther true) =>
          _ ← childrenToProcess node options; Throw (filterOfNonArray node options)
      | Some (ChArray []) | Some (ChOther false) | None => Ok (Some result, g)
      end
    else Ok (Some result, g).
Proof. destruct node; reflexivity. Qed.

(** A computation that ends by throwing does not return. *)
Lemma bind_Throw_Ok {A B} (m : Res A) (e : JsError) (b : B) :
  (m ≫= λ _, Throw e) ≠ Ok b.
Proof. destruct m; discriminate. Qed.

(** Closes the cases of a [children] value that is not an array, where the
    call throws. *)
Ltac not_an_array :=
  first
    [ discriminate
    | match goal with
      | H : (_ ≫= _) = Ok _ |- _ => exfalso; exact (bind_Throw_Ok _ _ _ H)
      | |- (_ ≫= _) = Ok _ → _ =>
          let E := fresh in intros E; exfalso; exact (bind_Throw_Ok _ _ _ E)
      end ].

Lemma applyExtractors_base extractors node result context :
  let r := (applyExtractors extractors node result context).1 in
  s_id r = s_id result ∧ s_name r = s_name result ∧ s_type r = s_type result
  ∧ s_children r = s_children result.
Proof.
  revert result context. induction extractors as [|e es IH]; intros result context; simpl.
  - auto.
  - destruct (e node result context) as [f g].
    destruct (IH (withFields result f) (withGlobalVars context g)) as (?&?&?&?). auto.
Qed.

(** What a call that retains its node returns: the base fields, and a
    children field only when the walk over the selected children of the
    node produced at least one output node. *)
Lemma processNodeWithExtractors_inv node extractors context options r g :
  processNodeWithExtractors node extractors context options = Ok (Some r, g) →
  shouldProcessNode node options = true
  ∧ s_id r = n_id node ∧ s_name r = n_name node
  ∧ s_type r = (if String.eqb (n_type node) "VECTOR" then "IMAGE-SVG" else n_type node)
  ∧ (s_children r = None
     ∨ ∃ children keep g0 c cs,
         shouldTraverseChildren node context options = true
         ∧ n_children node = Some (ChArray children)
         ∧ childrenToProcess node options = Ok keep
         ∧ filterMapM (λ child, keep child && shouldProcessNode child options)
             (λ child g', processNodeWithExtractors child extractors
                            (childContext node context g') options)
             children g0 = Ok (c :: cs, g)
         ∧ s_children r = Some (c :: cs)).
Proof.
  rewrite processNodeWithExtractors_eq.
  destruct (shouldProcessNode node options); simpl; [|discriminate].
  pose proof (applyExtractors_base extractors node (baseResult node) context) as Hb.
  destruct (applyExtractors extractors node (baseResult node) context) as [result g0].
  simpl in Hb. destruct Hb as (Hi & Hn & Ht & Hc).
  assert (Hleaf : Ok (Some result, g0) = Ok (Some r, g) →
                  s_id r = n_id node ∧ s_name r = n_name node
                  ∧ s_type r = s_type (baseResult node) ∧ s_children r = None).
  { intros [= <- <-]. auto. }
  destruct (shouldTraverseChildren node context options) eqn:Htrav.
  2:{ intros E. destruct (Hleaf E) as (?&?&?&?). auto 10. }
  destruct (n_children node) as [[|[|]|[|c0 children]]|] eqn:Hch; try not_an_array.
  1,2,4: intros E; destruct (Hleaf E) as (?&?&?&?); auto 10.
  intros E. inv_bind E. rename a into keep. inv_bind E. destruct a as [cs g'].
  injection E as <- <-. destruct cs as [|c cs].
  - auto 10.
  - simpl. repeat split; try assumption. right. exists (c0 :: children), keep, g0, c, cs.
    auto.
Qed.

(** ** Override target identifiers *)

Lemma includes_char_cons sep c s :
  includes (String sep "") (String c s) = Ascii.eqb c sep || includes (String sep "") s.
Proof. simpl. rewrite andb_true_r, (Ascii.eqb_sym sep c). reflexivity. Qed.

Lemma split_no_sep sep s : includes (String sep "") s = false → split sep s = [s].
Proof.
  induction s as [|c s IH]; [reflexivity|]. rewrite includes_char_cons. simpl.
  destruct (Ascii.eqb c sep); [discriminate|]. intros H. rewrite (IH H). reflexivity.
Qed.

Lemma split_app_sep sep a b :
  includes (String sep "") a = false →
  split sep (a ++ String sep b) = a :: split sep b.
Proof.
  induction a as [|c a IH].
  - intros _. simpl. rewrite Ascii.eqb_refl. reflexivity.
  - rewrite includes_char_cons. simpl.
    destruct (Ascii.eqb c sep); [discriminate|]. intros H. rewrite (IH H). reflexivity.
Qed.

Lemma includes_first sep s :
  includes (String sep "") s = true →
  ∃ a b, s = a ++ String sep b ∧ includes (String sep "") a = false.
Proof.
  induction s as [|c s IH]; [discriminate|]. rewrite includes_char_cons.
  destruct (Ascii.eqb c sep) eqn:E.
  - intros _. apply Ascii.eqb_eq in E as ->. exists EmptyString, s. auto.
  - intros H. destruct (IH H) as (a & b & -> & Ha). exists (String c a), b.
    rewrite includes_char_cons, E. auto.
Qed.

(** A string is cut at its first separator, if it has one. *)
Lemma first_field sep s :
  ∃ a rest, s = a ++ rest ∧ includes (String sep "") a = false
            ∧ (rest = EmptyString ∨ ∃ rest', rest = String sep rest')
            ∧ ∃ t, split sep s = a :: t.
Proof.
  destruct (includes (String sep "") s) eqn:E.
  - destruct (includes_first _ _ E) as (a & b & -> & Ha).
    exists a, (String sep b). rewrite split_app_sep by assumption. eauto 10.
  - exists s, EmptyString. rewrite split_no_sep by assumption.
    split; [clear E; induction s as [|c s IH]; simpl; [reflexivity | rewrite <- IH; reflexivity]|].
    eauto.
Qed.

(** C4.  The target of an override whose id string is [id]: when [id]
    contains [;], it is the second field of the split of [id] on [;], the
    text between the first [;] and the next one (or the end of the id);
    when [id] contains no [;], it is [id] itself. *)
Theorem override_target_is_second_field (id : string) (overriddenFields : list string) :
  if includes ";" id
  then ∃ first second rest,
         id = first ++ ";" ++ second ++ rest
         ∧ includes ";" first = false ∧ includes ";" second = false
         ∧ (rest = "" ∨ ∃ rest', rest = ";" ++ rest')
         ∧ split ";" id !! 1%nat = Some second
         ∧ overrideTarget (mkOverride (Some id) overriddenFields) = Ok (Some second)
  else split ";" id = [id]
       ∧ overrideTarget (mkOverride (Some id) overriddenFields) = Ok (Some id).
Proof.
  unfold overrideTarget. simpl ov_id. cbv iota. unfold overrideTargetId.
  destruct (includes ";" id) eqn:E.
  - destruct (includes_first _ _ E) as (a & b & -> & Ha).
    destruct (first_field ";" b) as (second & rest & -> & Hs & Hrest & t & Hsplit).
    exists a, second, rest. rewrite split_app_sep, Hsplit by assumption. simpl. auto 10.
  - rewrite split_no_sep by assumption. auto.
Qed.

(** The id of the comment in the source, and an id with two separators:
    the second field is taken, not the last. *)
Example overrideTargetId_source_comment :
  overrideTargetId "I6317:6851;6465:24096" = Some "6465:24096".
Proof. reflexivity. Qed.

Example overrideTargetId_two_separators : overrideTargetId "a;b;c" = Some "b".
Proof. reflexivity. Qed.

Example overrideTargetId_no_separator : overrideTargetId "6465:24096" = Some "6465:24096".
Proof. reflexivity. Qed.

(** ** Base fields *)

(** C5.  The output of every retained node carries the id and the name of
    its input node and its kind, whatever the extractor list; the kind
    [VECTOR] is replaced by [IMAGE-SVG] and every other kind is carried
    through unchanged. *)
Theorem base_fields_always_populated
    (node : RawNode) (extractors : list ExtractorFn) (context : TraversalContext)
    (options : TraversalOptions) (r : SimplifiedNode) (g : GlobalVars) :
  processNodeWithExtractors node extractors context options = Ok (Some r, g) →
  s_id r = n_id node ∧ s_name r = n_name node
  ∧ (n_type node = "VECTOR" → s_type r = "IMAGE-SVG")
  ∧ (n_type node ≠ "VECTOR" → s_type r = n_type node).
Proof.
  intros E. apply processNodeWithExtractors_inv in E as (_ & Hi & Hn & Ht & _).
  repeat split; try assumption.
  - intros Hv. rewrite Ht, Hv. reflexivity.
  - intros Hv. rewrite Ht. apply String.eqb_neq in Hv. rewrite Hv. reflexivity.
Qed.

(** ** Where output nodes come from *)

Lemma shouldProcessNode_shown node options :
  shouldProcessNode node options = true → shown node.
Proof.
  unfold shouldProcessNode, isVisible, shown.
  destruct (n_visible node) as [[]|]; simpl; congruence.
Qed.

Lemma pathAt_impl (P Q : RawNode → Prop) k root n :
  (∀ x, P x → Q x) → pathAt P k root n → pathAt Q k root n.
Proof. intros HPQ. induction 1; econstructor; eauto. Qed.

(** Every node of the output of a call is itself what a call returned: a
    call on an input node of the same depth below the first call's node,
    reached through retained nodes, one level deeper at each step. *)
Lemma processNodeWithExtractors_origin extractors options node :
  ∀ context r g,
    processNodeWithExtractors node extractors context options = Ok (Some r, g) →
    ∀ k o, occursAt k r o →
      ∃ n context' g',
        pathAt (retained options) k node n
        ∧ processNodeWithExtractors n extractors context' options = Ok (Some o, g')
        ∧ c_currentDepth context' = c_currentDepth context + k.
Proof.
  induction node as [node IH] using RawNode_ind'. intros context r g E k o Hocc.
  pose proof E as E0.
  apply processNodeWithExtractors_inv in E as (Hgate & _ & _ & _ & Hch).
  inversion Hocc as [|k' ? cs c ? Hcs Hc Hocc']; subst.
  - exists node, context, g. split; [constructor; exact Hgate|]. split; [exact E0 | lia].
  - destruct Hch as [Hnone | (children & keep & g0 & c1 & cs1 & _ & Hchildren & _ & Hwalk & Hsome)];
      [congruence|].
    rewrite Hsome in Hcs. injection Hcs as <-.
    eapply filterMapM_Forall with
      (Q := λ c, ∀ k o, occursAt k c o →
                 ∃ x n context' g', x ∈ children
                   ∧ pathAt (retained options) k x n
                   ∧ processNodeWithExtractors n extractors context' options = Ok (Some o, g')
                   ∧ c_currentDepth context' = c_currentDepth context + 1 + k)
      in Hwalk.
    + rewrite Forall_forall in Hwalk.
      destruct (Hwalk c Hc _ _ Hocc') as (x & n & context' & g' & Hx & Hpath & Hcall & Hd).
      exists n, context', g'. split; [econstructor; eauto|]. split; [exact Hcall | lia].
    + specialize (IH _ Hchildren). rewrite Forall_forall in IH |- *.
      intros x Hx _ s r' s' E' k0 o0 Hocc0.
      destruct (IH x Hx _ _ _ E' _ _ Hocc0) as (n & context' & g' & ? & ? & Hd).
      exists x, n, context', g'. simpl in Hd. auto.
Qed.

Lemma extractFromDesign_inv rawNodes extractors options globalVars out :
  extractFromDesign rawNodes extractors options globalVars = Ok out →
  filterMapM (λ node, shouldProcessNode node options)
    (λ node g, processNodeWithExtractors node extractors
                 {| c_globalVars := g; c_currentDepth := 0; c_options := options;
                    c_parent := None |} options)
    rawNodes globalVars = Ok (r_nodes out, r_globalVars out).
Proof.
  unfold extractFromDesign, withGlobalVars. simpl. intros E. inv_bind E.
  destruct a as [rs g]. injection E as <-. exact Ha.
Qed.

(** The same for a whole pass: every node of the output, [k] levels below
    an output root, is what a call at depth [k] returned on an input node
    [k] levels below an input root. *)
Lemma extractFromDesign_origin rawNodes extractors options globalVars out :
  extractFromDesign rawNodes extractors options globalVars = Ok out →
  ∀ root k o, root ∈ r_nodes out → occursAt k root o →
    ∃ raw n context g,
      raw ∈ rawNodes ∧ pathAt (retained options) k raw n
      ∧ processNodeWithExtractors n extractors context options = Ok (Some o, g)
      ∧ c_currentDepth context = k.
Proof.
  intros E root k o Hroot Hocc. apply extractFromDesign_inv in E.
  eapply filterMapM_Forall with
    (Q := λ r, ∀ k o, occursAt k r o →
               ∃ raw n context g,
                 raw ∈ rawNodes ∧ pathAt (retained options) k raw n
                 ∧ processNodeWithExtractors n extractors context options = Ok (Some o, g)
                 ∧ c_currentDepth context = k)
    in E.
  - rewrite Forall_forall in E. eauto.
  - rewrite Forall_forall. intros raw Hraw _ s r s' E' k0 o0 Hocc0.
    destruct (processNodeWithExtractors_origin _ _ _ _ _ _ E' _ _ Hocc0)
      as (n & context & g & ? & ? & Hd).
    exists raw, n, context, g. simpl in Hd. auto.
Qed.

(** ** Hidden nodes *)

Lemma filterMapM_ext {A B S} (p : A → bool) (f f' : A → S → Res (option B * S)) xs :
  Forall (λ x, p x = true → ∀ s, f x s = f' x s) xs →
  ∀ s, filterMapM p f xs s = filterMapM p f' xs s.
Proof.
  induction 1 as [|x xs Hx _ IH]; intros s; [reflexivity|].
  rewrite !filterMapM_cons. destruct (p x) eqn:Hp; [|apply IH].
  rewrite (Hx eq_refl). destruct (f' x s) as [[r s1]|e]; simpl; [|reflexivity].
  rewrite IH. reflexivity.
Qed.

Lemma applyExtractors_agree extractors extractors' node :
  Forall2 (agreeOn node) extractors extractors' →
  ∀ result context,
    applyExtractors extractors node result context
    = applyExtractors extractors' node result context.
Proof.
  induction 1 as [|e e' es es' He _ IH]; intros result context; simpl; [reflexivity|].
  rewrite (He result context). destruct (e' node result context) as [f g]. apply IH.
Qed.

(** A call only runs the extractors on retained nodes reached through
    retained nodes: extractors that agree there give the same call. *)
Lemma processNodeWithExtractors_agree extractors extractors' options node :
  (∀ k n, pathAt (retained options) k node n → Forall2 (agreeOn n) extractors extractors') →
  ∀ context,
    processNodeWithExtractors node extractors context options
    = processNodeWithExtractors node extractors' context options.
Proof.
  induction node as [node IH] using RawNode_ind'. intros Hagree context.
  rewrite !processNodeWithExtractors_eq.
  destruct (shouldProcessNode node options) eqn:Hgate; simpl; [|reflexivity].
  rewrite (applyExtractors_agree extractors extractors' node)
    by (apply (Hagree 0%nat); constructor; exact Hgate).
  destruct (applyExtractors extractors' node (baseResult node) context) as [result g].
  destruct (shouldTraverseChildren node context options); [|reflexivity].
  specialize (IH (rawChildren node)). unfold rawChildren in IH.
  destruct (n_children node) as [[|[|]|[|c children]]|] eqn:Hch; try reflexivity.
  destruct (childrenToProcess node options) as [keep|e]; [|reflexivity].
  rewrite !Ok_bind.
  rewrite (filterMapM_ext _ _
             (λ child g', processNodeWithExtractors child extractors'
                            (childContext node context g') options)); [reflexivity|].
  specialize (IH eq_refl). cbv beta iota in IH. rewrite Forall_forall in IH |- *.
  intros x Hx _ s. apply IH; [exact Hx|].
  intros k n Hpath. apply (Hagree (S k)). econstructor; eauto.
Qed.

(** C1.  Every node of the output stems from an input node at the same
    depth whose visibility flag is not false and none of whose ancestors has
    a false visibility flag: a node with a false flag is absent from the
    output, and so is each of its descendants whatever its own flag.  No
    extractor is run on such a node: the pass gives the same result with any
    extractors that do the same on the nodes reached through shown nodes
    only. *)
Theorem hidden_subtrees_are_excluded
    (rawNodes : list RawNode) (extractors : list ExtractorFn)
    (options : TraversalOptions) (globalVars : GlobalVars) (out : Extracted) :
  extractFromDesign rawNodes extractors options globalVars = Ok out →
  (∀ root k o, root ∈ r_nodes out → occursAt k root o →
     ∃ raw n, raw ∈ rawNodes ∧ pathAt shown k raw n ∧ baseOf n o)
  ∧ (∀ extractors',
       (∀ raw k n, raw ∈ rawNodes → pathAt shown k raw n →
                   Forall2 (agreeOn n) extractors extractors') →
       extractFromDesign rawNodes extractors' options globalVars = Ok out).
Proof.
  intros E. split.
  - intros root k o Hroot Hocc.
    destruct (extractFromDesign_origin _ _ _ _ _ E _ _ _ Hroot Hocc)
      as (raw & n & context & g & Hraw & Hpath & Hcall & _).
    exists raw, n. split; [exact Hraw|]. split.
    + eapply pathAt_impl; [|exact Hpath]. intros x. apply shouldProcessNode_shown.
    + apply processNodeWithExtractors_inv in Hcall as (_ & ? & ? & ? & _).
      repeat split; assumption.
  - intros extractors' Hagree. rewrite <- E. unfold extractFromDesign.
    rewrite (filterMapM_ext _ _
      (λ node g, processNodeWithExtractors node extractors
         (withGlobalVars {| c_globalVars := globalVars; c_currentDepth := 0;
                            c_options := options; c_parent := None |} g) options));
      [reflexivity|].
    rewrite Forall_forall. intros raw Hraw _ s. symmetry.
    apply processNodeWithExtractors_agree. intros k n Hpath.
    apply (Hagree raw k n Hraw). eapply pathAt_impl; [|exact Hpath].
    intros x. apply shouldProcessNode_shown.
Qed.

(** ** The children field *)

Lemma processNodeWithExtractors_Some node extractors context options o g :
  shouldProcessNode node options = true →
  processNodeWithExtractors node extractors context options = Ok (o, g) →
  ∃ r, o = Some r.
Proof.
  intros Hgate. rewrite processNodeWithExtractors_eq, Hgate. simpl negb. cbv iota.
  destruct (applyExtractors extractors node (baseResult node) context) as [result g0].
  destruct (shouldTraverseChildren node context options); [|intros [= <- _]; eauto].
  destruct (n_children node) as [[|[|]|[|c children]]|]; try not_an_array;
    try (intros [= <- _]; eauto).
  intros E. inv_bind E. inv_bind E. destruct a0 as [cs g']. injection E as <- _. eauto.
Qed.

(** The children sequence of the output of a call lists, in order, the
    outputs of the selected children of its node, one for each. *)
Lemma children_field_spec node extractors context options r g :
  processNodeWithExtractors node extractors context options = Ok (Some r, g) →
  (s_children r = None ∨ ∃ c cs, s_children r = Some (c :: cs))
  ∧ (shouldTraverseChildren node context options = false → s_children r = None)
  ∧ ∀ keep, childrenToProcess node options = Ok keep →
            Forall2 baseOf (selectedChildren node context options keep) (childrenOf r).
Proof.
  intros E. split; [|split].
  - apply processNodeWithExtractors_inv in E as (_ & _ & _ & _ & Hch).
    destruct Hch as [?|(? & ? & ? & c & cs & _ & _ & _ & _ & ?)]; eauto.
  - intros Htrav. apply processNodeWithExtractors_inv in E as (_ & _ & _ & _ & Hch).
    destruct Hch as [?|(? & ? & ? & c & cs & ? & _)]; [assumption | congruence].
  - intros keep Hkeep. unfold selectedChildren, childrenOf.
    rewrite processNodeWithExtractors_eq in E.
    destruct (shouldProcessNode node options); [|discriminate]. simpl negb in E. cbv iota in E.
    pose proof (applyExtractors_base extractors node (baseResult node) context) as Hb.
    destruct (applyExtractors extractors node (baseResult node) context) as [result g0].
    simpl in Hb. destruct Hb as (_ & _ & _ & Hc).
    destruct (shouldTraverseChildren node context options).
    2:{ injection E as <- _. rewrite Hc. constructor. }
    unfold rawChildren.
    destruct (n_children node) as [[|[|]|[|c0 children]]|]; try not_an_array.
    1,2,4: injection E as <- _; rewrite Hc; constructor.
    rewrite Hkeep, Ok_bind in E. inv_bind E. destruct a as [cs g'].
    injection E as <- _. simpl default at 1.
    assert (Forall2 baseOf
              (List.filter (λ child, keep child && shouldProcessNode child options)
                 (c0 :: children)) cs) as HF.
    { eapply filterMapM_Forall2; [|exact Ha]. rewrite Forall_forall.
      intros x _ Hp s o s' Ex. apply andb_true_iff in Hp as [_ Hgate].
      destruct (processNodeWithExtractors_Some _ _ _ _ _ _ Hgate Ex) as [rx ->].
      exists rx. split; [reflexivity|].
      apply processNodeWithExtractors_inv in Ex as (_ & ? & ? & ? & _).
      repeat split; assumption. }
    destruct cs; [rewrite Hc|]; exact HF.
Qed.

(** C6.  The output of a retained node has no children field when none of
    its children is left after the depth check, the instance pruning, the
    visibility gate and the custom filter; and no node of an output, at any
    depth, carries an empty children sequence. *)
Theorem no_empty_children_field :
  (∀ node extractors context options r g keep,
     processNodeWithExtractors node extractors context options = Ok (Some r, g) →
     childrenToProcess node options = Ok keep →
     selectedChildren node context options keep = [] →
     s_children r = None)
  ∧ (∀ rawNodes extractors options globalVars out root k o,
       extractFromDesign rawNodes extractors options globalVars = Ok out →
       root ∈ r_nodes out → occursAt k root o →
       s_children o ≠ Some []).
Proof.
  split.
  - intros node extractors context options r g keep E Hkeep Hsel.
    destruct (children_field_spec _ _ _ _ _ _ E) as (Hshape & _ & HF).
    specialize (HF keep Hkeep). rewrite Hsel in HF.
    destruct Hshape as [?|(c & cs & Hs)]; [assumption|].
    unfold childrenOf in HF. rewrite Hs in HF. inversion HF.
  - intros rawNodes extractors options globalVars out root k o E Hroot Hocc.
    destruct (extractFromDesign_origin _ _ _ _ _ E _ _ _ Hroot Hocc)
      as (_ & n & context & g & _ & _ & Hcall & _).
    destruct (children_field_spec _ _ _ _ _ _ Hcall) as ([->|(c & cs & ->)] & _);
      discriminate.
Qed.

(** ** Instance pruning *)

Lemma mapRes_Ok_elem {A B} (f : A → Res B) l ys :
  mapRes f l = Ok ys → ∀ y, y ∈ ys ↔ ∃ x, x ∈ l ∧ f x = Ok y.
Proof.
  revert ys. induction l as [|x l IH]; simpl; intros ys E y.
  - injection E as <-. split; [intros H; inversion H | intros (x & H & _); inversion H].
  - inv_bind E. inv_bind E. injection E as <-. rewrite elem_of_cons, (IH _ Ha0). split.
    + intros [->|(x' & Hx' & Hf)]; [exists x | exists x']; rewrite elem_of_cons; auto.
    + intros (x' & Hx' & Hf). apply elem_of_cons in Hx' as [->|Hx'].
      * left. congruence.
      * right. eauto.
Qed.

Lemma overrideTarget_Ok ov X :
  overrideTarget ov = Ok (Some X) ↔ ∃ id, ov_id ov = Some id ∧ overrideTargetId id = Some X.
Proof.
  unfold overrideTarget. destruct (ov_id ov) as [id|]; split.
  - intros [= E]. eauto.
  - intros (id' & [= <-] & ->). reflexivity.
  - discriminate.
  - intros (id' & [=] & _).
Qed.

Lemma sublist_List_filter {A} (p : A → bool) (l : list A) : sublist (List.filter p l) l.
Proof.
  induction l as [|x l IH]; simpl; [constructor|].
  destruct (p x); constructor; exact IH.
Qed.

Lemma elem_of_List_filter {A} (p : A → bool) (l : list A) x :
  x ∈ List.filter p l ↔ x ∈ l ∧ p x = true.
Proof. rewrite !list_elem_of_In. apply filter_In. Qed.

Lemma Forall2_elem_of_l {A B} (R : A → B → Prop) l k x :
  Forall2 R l k → x ∈ l → ∃ y, y ∈ k ∧ R x y.
Proof.
  induction 1 as [|a b l k HR _ IH]; intros Hx; [inversion Hx|].
  apply elem_of_cons in Hx as [->|Hx].
  - exists b. split; [left | exact HR].
  - destruct (IH Hx) as (y & ? & ?). exists y. split; [right|]; assumption.
Qed.

Lemma childless_no_field node extractors context options r g :
  processNodeWithExtractors node extractors context options = Ok (Some r, g) →
  rawChildren node = [] → s_children r = None.
Proof.
  intros E Hch. apply processNodeWithExtractors_inv in E as (_ & _ & _ & _ & Hc).
  destruct Hc as [?|(children & keep & g0 & c & cs & _ & Hchildren & _ & Hwalk & _)];
    [assumption|].
  unfold rawChildren in Hch. rewrite Hchildren in Hch. subst children. discriminate.
Qed.

(** The pruning predicate is evaluated whenever the call walks a non-empty
    children sequence. *)
Lemma childrenToProcess_evaluated node extractors context options r g c cs :
  processNodeWithExtractors node extractors context options = Ok (Some r, g) →
  shouldTraverseChildren node context options = true →
  n_children node = Some (ChArray (c :: cs)) →
  returns (childrenToProcess node options).
Proof.
  rewrite processNodeWithExtractors_eq. intros E Htrav Hch.
  destruct (shouldProcessNode node options); [|discriminate]. simpl negb in E. cbv iota in E.
  destruct (applyExtractors extractors node (baseResult node) context) as [result g0].
  rewrite Htrav, Hch in E. inv_bind E. eexists; eassumption.
Qed.

(** C3, as the code has it.  For an INSTANCE node processed without
    [includeFullInstanceData]: with no override declared the output has no
    children field; with at least one override, and when the depth bound is
    not reached at the instance, the output children are, in order, the
    outputs of the children that pass the visibility gate and the custom
    filter and either are the target of an override or have children of
    their own.  So a child that is an override target, or that has
    children, is in the output when it passes the two gates, and a
    non-overridden child without children is not. *)
Theorem instance_children_follow_overrides
    (node : RawNode) (extractors : list ExtractorFn) (context : TraversalContext)
    (options : TraversalOptions) (r : SimplifiedNode) (g : GlobalVars) :
  n_type node = "INSTANCE" →
  includeFullInstanceData options = false →
  processNodeWithExtractors node extractors context options = Ok (Some r, g) →
  (hasOverrides node = false → s_children r = None)
  ∧ (∀ ovs children,
       n_overrides node = Some (OvArray ovs) → ovs ≠ [] →
       n_children node = Some (ChArray children) →
       (∀ d, maxDepth options = Some d → (Z.of_nat (c_currentDepth context) < d)%Z) →
       let target X :=
         ∃ ov id, ov ∈ ovs ∧ ov_id ov = Some id ∧ overrideTargetId id = Some X in
       let hasChildren c := ∃ gc gcs, n_children c = Some (ChArray (gc :: gcs)) in
       (∀ c, c ∈ children → target (n_id c) → shouldProcessNode c options = true →
             ∃ o, o ∈ childrenOf r ∧ baseOf c o)
       ∧ (∀ c, c ∈ children → hasChildren c → shouldProcessNode c options = true →
               ∃ o, o ∈ childrenOf r ∧ baseOf c o)
       ∧ ∃ kept,
           sublist kept children
           ∧ Forall2 baseOf kept (childrenOf r)
           ∧ ∀ c, c ∈ kept ↔
                  c ∈ children ∧ shouldProcessNode c options = true
                  ∧ (target (n_id c) ∨ hasChildren c)).
Proof.
  intros Htype Hfull E.
  destruct (children_field_spec _ _ _ _ _ _ E) as (_ & Hnotrav & Hspec).
  assert (Hinst : String.eqb (n_type node) "INSTANCE"
                  && negb (includeFullInstanceData options) = true).
  { rewrite Htype, Hfull. reflexivity. }
  split.
  - intros Hno. apply Hnotrav. unfold shouldTraverseChildren.
    rewrite Hinst, Hno. destruct (match maxDepth options with Some _ => _ | None => _ end);
      reflexivity.
  - intros ovs children Hovs Hne Hch Hdepth target hasChildren.
    assert (Htrav : shouldTraverseChildren node context options = true).
    { unfold shouldTraverseChildren, hasOverrides. rewrite Hinst, Hovs.
      destruct (maxDepth options) as [d|] eqn:Hd.
      - specialize (Hdepth d eq_refl).
        destruct (Z.leb_spec d (Z.of_nat (c_currentDepth context))); [lia|].
        destruct ovs; [congruence | reflexivity].
      - destruct ovs; [congruence | reflexivity]. }
    assert (Hkept : ∃ kept,
               sublist kept children
               ∧ Forall2 baseOf kept (childrenOf r)
               ∧ ∀ c, c ∈ kept ↔
                      c ∈ children ∧ shouldProcessNode c options = true
                      ∧ (target (n_id c) ∨ hasChildren c)).
    { destruct children as [|c0 children].
      - exists []. split; [constructor|]. split.
        + unfold childrenOf. rewrite (childless_no_field _ _ _ _ _ _ E); [constructor|].
          unfold rawChildren. rewrite Hch. reflexivity.
        + intros c. split; [intros H; inversion H | intros (H & _); inversion H].
      - destruct (childrenToProcess_evaluated _ _ _ _ _ _ _ _ E Htrav Hch) as [keep Hkeep].
        specialize (Hspec keep Hkeep). unfold selectedChildren, rawChildren in Hspec.
        rewrite Htrav, Hch in Hspec.
        eexists. split; [apply sublist_List_filter|]. split; [exact Hspec|].
        intros c. rewrite elem_of_List_filter, andb_true_iff.
        assert (keep c = true ↔ target (n_id c) ∨ hasChildren c) as ->; [|tauto].
        revert Hkeep. unfold childrenToProcess, hasValue_overrides, overrideNodeIds.
        rewrite Hinst, Hovs. rewrite bool_decide_eq_true_2 by eauto. simpl andb. cbv iota.
        intros Hk. inv_bind Hk. inv_bind Ha. injection Ha as <-. injection Hk as <-.
        unfold instanceChildFilter.
        rewrite orb_true_iff, bool_decide_eq_true, elem_of_list_to_set.
        rewrite (mapRes_Ok_elem _ _ _ Ha0).
        assert ((∃ x, x ∈ ovs ∧ overrideTarget x = Ok (Some (n_id c))) ↔ target (n_id c))
          as H1.
        { unfold target. split.
          - intros (ov & Hov & Ht). apply overrideTarget_Ok in Ht as (id & ? & ?). eauto.
          - intros (ov & id & Hov & Hid & Ht). exists ov. split; [exact Hov|].
            apply overrideTarget_Ok. eauto. }
        assert (hasValue_children c && match n_children c with
                                        | Some (ChArray (_ :: _)) => true
                                        | _ => false
                                        end = true ↔ hasChildren c) as H2.
        { unfold hasChildren, hasValue_children.
          destruct (n_children c) as [[|[|]|[|gc gcs]]|]; simpl;
            try (split; [discriminate | intros (? & ? & [=])]).
          split; eauto. }
        tauto. }
    destruct Hkept as (kept & Hsub & HF & Hmem).
    split; [|split].
    + intros c Hc Ht Hgate. eapply Forall2_elem_of_l; [exact HF|]. apply Hmem. auto.
    + intros c Hc Hh Hgate. eapply Forall2_elem_of_l; [exact HF|]. apply Hmem. auto.
    + exists kept. auto.
Qed.

(** ** Depth bound *)

Lemma occursAt_parent k root o :
  occursAt (S k) root o →
  ∃ p cs, occursAt k root p ∧ s_children p = Some cs ∧ o ∈ cs.
Proof.
  revert root. induction k as [|k IH]; intros root Hocc;
    inversion Hocc as [|? ? cs c ? Hcs Hc Hocc']; subst.
  - inversion Hocc'; subst. exists root, cs. split; [constructor | auto].
  - destruct (IH _ Hocc') as (p & cs' & Hp & Hcs' & Ho).
    exists p, cs'. split; [econstructor; eauto | auto].
Qed.

Lemma shouldTraverseChildren_bound node context options d :
  maxDepth options = Some d → (d ≤ Z.of_nat (c_currentDepth context))%Z →
  shouldTraverseChildren node context options = false.
Proof.
  intros Hd Hle. unfold shouldTraverseChildren. rewrite Hd.
  destruct (Z.leb_spec d (Z.of_nat (c_currentDepth context))); [reflexivity | lia].
Qed.

(** In a pass with depth bound [d], a node at or beyond depth [d] has no
    children field, and so no node lies deeper than [d] (or than the roots,
    for a negative [d]). *)
Lemma extractFromDesign_depth rawNodes extractors options globalVars out d :
  maxDepth options = Some d →
  extractFromDesign rawNodes extractors options globalVars = Ok out →
  ∀ root k o, root ∈ r_nodes out → occursAt k root o →
    (Z.of_nat k ≤ Z.max 0 d)%Z ∧ ((d ≤ Z.of_nat k)%Z → s_children o = None).
Proof.
  intros Hd E.
  assert (Hcut : ∀ root k o, root ∈ r_nodes out → occursAt k root o →
                 (d ≤ Z.of_nat k)%Z → s_children o = None).
  { intros root k o Hroot Hocc Hle.
    destruct (extractFromDesign_origin _ _ _ _ _ E _ _ _ Hroot Hocc)
      as (_ & n & context & g & _ & _ & Hcall & Hdepth).
    destruct (children_field_spec _ _ _ _ _ _ Hcall) as (_ & Hnotrav & _).
    apply Hnotrav. eapply shouldTraverseChildren_bound; [exact Hd | lia]. }
  intros root k o Hroot Hocc. split; [|eauto].
  destruct k as [|k]; [lia|].
  destruct (occursAt_parent _ _ _ Hocc) as (p & cs & Hp & Hcs & _).
  destruct (Z.le_gt_cases d (Z.of_nat k)) as [Hle|Hgt]; [|lia].
  rewrite (Hcut _ _ _ Hroot Hp Hle) in Hcs. discriminate.
Qed.

Lemma shouldProcessNode_withMaxDepth node options d :
  shouldProcessNode node (withMaxDepth options d) = shouldProcessNode node options.
Proof. reflexivity. Qed.

Lemma childrenToProcess_withMaxDepth node options d :
  childrenToProcess node (withMaxDepth options d) = childrenToProcess node options.
Proof. reflexivity. Qed.

Lemma shapeOf_eq r :
  shapeOf r = ShapeNode (s_id r) (s_name r) (s_type r)
                (option_map (map shapeOf) (s_children r)).
Proof. destruct r; reflexivity. Qed.

(** What a call that retains its node returns, with the walk it made. *)
Lemma processNodeWithExtractors_cases node extractors context options r g :
  processNodeWithExtractors node extractors context options = Ok (Some r, g) →
  baseOf node r
  ∧ ((shouldTraverseChildren node context options = false
      ∨ rawChildren node = [])
     ∧ s_children r = None
     ∨ ∃ keep g0 cs,
         shouldTraverseChildren node context options = true
         ∧ rawChildren node ≠ []
         ∧ childrenToProcess node options = Ok keep
         ∧ filterMapM (λ child, keep child && shouldProcessNode child options)
             (λ child g', processNodeWithExtractors child extractors
                            (childContext node context g') options)
             (rawChildren node) g0 = Ok (cs, g)
         ∧ s_children r = match cs with [] => None | _ :: _ => Some cs end).
Proof.
  intros E. split.
  { apply processNodeWithExtractors_inv in E as (_ & ? & ? & ? & _).
    repeat split; assumption. }
  rewrite processNodeWithExtractors_eq in E.
  destruct (shouldProcessNode node options); [|discriminate]. simpl negb in E. cbv iota in E.
  pose proof (applyExtractors_base extractors node (baseResult node) context) as Hb.
  destruct (applyExtractors extractors node (baseResult node) context) as [result g0].
  simpl in Hb. destruct Hb as (_ & _ & _ & Hc).
  destruct (shouldTraverseChildren node context options).
  2:{ injection E as <- _. auto. }
  unfold rawChildren.
  destruct (n_children node) as [[|[|]|[|c0 children]]|]; try not_an_array.
  1,2,4: injection E as <- _; auto.
  inv_bind E. rename a into keep. inv_bind E. destruct a as [cs g'].
  injection E as <- <-. right. exists keep, g0, cs.
  repeat split; try assumption; [discriminate|]. destruct cs; [exact Hc | reflexivity].
Qed.

Lemma filterMapM_rel {A B B' S S'} (p : A → bool)
    (f : A → S → Res (option B * S)) (f' : A → S' → Res (option B' * S'))
    (R : B → B' → Prop) xs :
  Forall (λ x, p x = true → ∀ s s' o o' t t',
                 f x s = Ok (o, t) → f' x s' = Ok (o', t') → option_Forall2 R o o') xs →
  ∀ s s' rs rs' t t',
    filterMapM p f xs s = Ok (rs, t) → filterMapM p f' xs s' = Ok (rs', t') →
    Forall2 R rs rs'.
Proof.
  induction 1 as [|x xs Hx _ IH]; intros s s' rs rs' t t' E E'.
  - injection E as <- _. injection E' as <- _. constructor.
  - rewrite filterMapM_cons in E. rewrite filterMapM_cons in E'.
    destruct (p x) eqn:Hp; [|eauto].
    inv_bind E. destruct a as [o s1]. inv_bind E. destruct a as [rs1 s2].
    inv_bind E'. destruct a as [o' s1']. inv_bind E'. destruct a as [rs1' s2'].
    injection E as <- _. injection E' as <- _.
    specialize (IH _ _ _ _ _ _ Ha0 Ha2).
    destruct (Hx eq_refl _ _ _ _ _ _ Ha Ha1); [constructor|]; assumption.
Qed.

Lemma Forall2_map_eq {A B C} (f : A → C) (h : C → C) (f' : B → C) l k :
  Forall2 (λ x y, f x = h (f' y)) l k → map f l = map h (map f' k).
Proof. induction 1 as [|x y l k Hxy _ IH]; simpl; [reflexivity|]. rewrite Hxy, IH. reflexivity. Qed.

(** A call under the depth bound [d] returns the shape of the unbounded
    call cut [m] levels down, where [m] is what is left of [d] at the call's
    depth. *)
Lemma processNodeWithExtractors_truncate extractors extractors' options d node :
  ∀ context context' m o o' g g',
    c_currentDepth context' = c_currentDepth context →
    (Z.of_nat (c_currentDepth context) + Z.of_nat m = Z.max 0 d)%Z →
    processNodeWithExtractors node extractors context (withMaxDepth options (Some d))
      = Ok (o, g) →
    processNodeWithExtractors node extractors' context' (withMaxDepth options None)
      = Ok (o', g') →
    option_Forall2 (λ r r', shapeOf r = truncate m (shapeOf r')) o o'.
Proof.
  induction node as [node IH] using RawNode_ind'.
  intros context context' m o o' g g' Hsame Hm E E'.
  destruct (shouldProcessNode node options) eqn:Hgate.
  2:{ rewrite processNodeWithExtractors_eq, shouldProcessNode_withMaxDepth, Hgate in E, E'.
      injection E as <- _. injection E' as <- _. constructor. }
  destruct (processNodeWithExtractors_Some _ _ _ (withMaxDepth options (Some d)) _ _ Hgate E)
    as [r ->].
  destruct (processNodeWithExtractors_Some _ _ _ (withMaxDepth options None) _ _ Hgate E')
    as [r' ->].
  constructor.
  apply processNodeWithExtractors_cases in E as ((Hi & Hn & Ht) & Hc).
  apply processNodeWithExtractors_cases in E' as ((Hi' & Hn' & Ht') & Hc').
  rewrite (shapeOf_eq r), (shapeOf_eq r'), Hi, Hn, Ht, Hi', Hn', Ht'. simpl truncate.
  f_equal.
  destruct m as [|m].
  { destruct Hc as [[_ ->]|(keep & g0 & cs & Htrav & _)]; [reflexivity|].
    rewrite (shouldTraverseChildren_bound _ _ _ d) in Htrav; [discriminate|reflexivity|].
    simpl. lia. }
  assert (Hsametrav :
            shouldTraverseChildren node context (withMaxDepth options (Some d))
            = shouldTraverseChildren node context' (withMaxDepth options None)).
  { unfold shouldTraverseChildren. cbn.
    destruct (Z.leb_spec d (Z.of_nat (c_currentDepth context))); [lia | reflexivity]. }
  destruct Hc as [[Hno ->]|(keep & g0 & cs & Htrav & Hne & Hkeep & Hwalk & ->)];
    destruct Hc' as [[Hno' ->]|(keep' & g0' & cs' & Htrav' & Hne' & Hkeep' & Hwalk' & ->)].
  - reflexivity.
  - exfalso. destruct Hno as [Hno|Hno]; congruence.
  - exfalso. destruct Hno' as [Hno'|Hno']; congruence.
  - rewrite childrenToProcess_withMaxDepth in Hkeep, Hkeep'.
    assert (keep' = keep) as -> by congruence.
    assert (Forall2 (λ r r', shapeOf r = truncate m (shapeOf r')) cs cs') as HF.
    { eapply filterMapM_rel; [|exact Hwalk|exact Hwalk'].
      unfold rawChildren.
      destruct (n_children node) as [[|?|children]|] eqn:Hch; try (constructor; fail).
      specialize (IH _ eq_refl).
      rewrite Forall_forall in IH |- *.
      intros x Hx _ s s' ox ox' t t' Ex Ex'.
      apply (IH x Hx (childContext node context s) (childContext node context' s')
               m ox ox' t t'); [simpl; lia | simpl; lia | exact Ex | exact Ex']. }
    apply Forall2_map_eq in HF.
    destruct cs, cs'; try discriminate; [reflexivity|].
    simpl in HF |- *. rewrite HF. reflexivity.
Qed.

(** C2.  In a pass with [maxDepth = d], roots being at depth 0: no output
    node lies deeper than [d] (than the roots, when [d] is negative); an
    output node at depth [d] has no children field; and the nodes down to
    depth [d] are all there: the output is the output of the pass without
    depth bound, cut below depth [d]. *)
Theorem depth_bound_is_inclusive
    (rawNodes : list RawNode) (extractors : list ExtractorFn)
    (options : TraversalOptions) (globalVars : GlobalVars) (d : Z) (out : Extracted) :
  maxDepth options = Some d →
  extractFromDesign rawNodes extractors options globalVars = Ok out →
  (∀ root k o, root ∈ r_nodes out → occursAt k root o → (Z.of_nat k ≤ Z.max 0 d)%Z)
  ∧ (∀ root k o, root ∈ r_nodes out → occursAt k root o → (d ≤ Z.of_nat k)%Z →
                 s_children o = None)
  ∧ (∀ extractors' globalVars' unbounded,
       extractFromDesign rawNodes extractors' (withMaxDepth options None) globalVars'
         = Ok unbounded →
       map shapeOf (r_nodes out)
       = map (truncate (Z.to_nat d)) (map shapeOf (r_nodes unbounded))).
Proof.
  intros Hd E. split; [|split].
  - intros root k o Hroot Hocc.
    apply (extractFromDesign_depth _ _ _ _ _ _ Hd E _ _ _ Hroot Hocc).
  - intros root k o Hroot Hocc.
    apply (extractFromDesign_depth _ _ _ _ _ _ Hd E _ _ _ Hroot Hocc).
  - intros extractors' globalVars' unbounded E'.
    assert (options = withMaxDepth options (Some d)) as Hopt.
    { destruct options. simpl in Hd. subst. reflexivity. }
    rewrite Hopt in E.
    apply extractFromDesign_inv in E. apply extractFromDesign_inv in E'.
    apply Forall2_map_eq. eapply filterMapM_rel; [|exact E|exact E'].
    rewrite Forall_forall. intros x _ _ s s' o o' t t' Ex Ex'.
    eapply (processNodeWithExtractors_truncate _ _ options d);
      [| |exact Ex|exact Ex']; simpl; lia.
Qed.

(** ** Exceptions *)




Lemma childrenAreArrays_eq node :
  childrenAreArrays node =
  match n_children node with
  | None => true
  | Some (ChArray l) => forallb childrenAreArrays l
  | Some _ => false
  end.
Proof. destruct node as [? ? ? ? [[| |cs]|] ? ?]; reflexivity. Qed.



(** ** The retry wrapper *)

Section Retry.
Context {T W : Type}.
Variable operation : W → Settled T * W.
Variable cfg : RetryConfig.

Lemma retryLoop_calls (remaining : nat) :
  ∀ attempt lastError w,
    ∃ k : nat, (k ≤ remaining)%nat
         ∧ (retryLoop operation cfg remaining attempt lastError w).2
           = worldAfter operation k w.
Proof.
  induction remaining as [|remaining IH]; intros attempt lastError w; simpl.
  - exists 0. auto.
  - destruct (operation w) as [[v|error] w'] eqn:Hop.
    + exists 1. simpl. rewrite Hop. split; [lia | reflexivity].
    + destruct (asFigmaContextError error) as [e|x].
      2:{ exists 1. simpl. rewrite Hop. split; [lia | reflexivity]. }
      destruct (negb _).
      * exists 1. simpl. rewrite Hop. split; [lia | reflexivity].
      * destruct (IH (attempt + 1)%Z (Some e) w') as (k & Hk & ->).
        exists (S k). simpl. rewrite Hop. split; [lia | reflexivity].
Qed.

Lemma retryLoop_stops (j : nat) :
  ∀ (remaining : nat) attempt lastError w,
    (attempt + Z.of_nat remaining = maxAttempts cfg + 1)%Z →
    (j < remaining)%nat →
    (∀ i : nat, (i < j)%nat → failsRetryably operation cfg i w) →
    (∀ error e, settles operation j w = Rejected error →
                asFigmaContextError error = Ok e →
                S j = remaining ∨ retryableUnder cfg e = false) →
    retryLoop operation cfg remaining attempt lastError w = outcomeAt operation j w.
Proof.
  induction j as [|j IH]; intros remaining attempt lastError w Hinv Hlt Hbefore Hstop;
    (destruct remaining as [|remaining]; [lia|]); simpl retryLoop.
  - unfold outcomeAt, settles in *. simpl in *.
    destruct (operation w) as [[v|error] w'] eqn:Hop; simpl in *; [reflexivity|].
    destruct (asFigmaContextError error) as [e|x] eqn:Hcat; [|reflexivity].
    destruct (Hstop error e eq_refl Hcat) as [Hlast|Hnon].
    + assert ((attempt <? maxAttempts cfg)%Z = false) as -> by (apply Z.ltb_ge; lia).
      reflexivity.
    + unfold retryableUnder in Hnon. rewrite <- andb_assoc, Hnon, andb_false_r. reflexivity.
  - destruct (Hbefore 0 ltac:(lia)) as (error & e & Hset & Hcat & Hretry).
    unfold settles in Hset. simpl in Hset.
    destruct (operation w) as [s w'] eqn:Hop. simpl in Hset. subst s. rewrite Hcat.
    assert ((attempt <? maxAttempts cfg)%Z = true) as -> by (apply Z.ltb_lt; lia).
    unfold retryableUnder in Hretry. rewrite <- andb_assoc, Hretry. simpl negb. cbv iota.
    rewrite (IH remaining (attempt + 1)%Z _ w'); [| lia | lia | |].
    + unfold outcomeAt, settles. simpl. rewrite Hop. reflexivity.
    + intros i Hi. destruct (Hbefore (S i) ltac:(lia)) as (e' & c' & He' & Hc' & Hr').
      exists e', c'. split; [|split; [exact Hc' | exact Hr']].
      unfold settles in *. simpl in He'. rewrite Hop in He'. exact He'.
    + intros e' c' He' Hc'.
      destruct (Hstop e' c') as [?|?]; [| exact Hc' | left; lia | right; assumption].
      unfold settles in *. simpl. rewrite Hop. exact He'.
Qed.

End Retry.

(** C10.  [withRetry] calls the operation at most [maxAttempts] times,
    where [maxAttempts] is the caller's, and 3 when the caller gives none.
    When the calls before call [j + 1] all failed with an error that is
    retryable and whose type is in [retryableErrors] (the caller's list, or
    NETWORK, TIMEOUT, RATE_LIMIT and API when the caller gives none): if
    call [j + 1] succeeds, its result is returned; if it fails with an error
    that is not retryable or whose type is not in the list, that error is
    thrown at once; if it is call number [maxAttempts] and fails, its error
    is thrown; and if it throws [null] or [undefined], so that the failure
    cannot be categorized, the [TypeError] of [categorizeError] is thrown at
    once.  In each case no further call is made. *)
Theorem withRetry_attempts {T W : Type}
    (operation : W → Settled T * W) (config : PartialRetryConfig) (w : W) :
  let maxAttempts := default 3%Z (p_maxAttempts config) in
  let retryableErrors :=
    default [NETWORK_ERROR; TIMEOUT_ERROR; RATE_LIMIT_ERROR; API_ERROR]
      (p_retryableErrors config) in
  let n := Z.to_nat maxAttempts in
  (∃ k : nat, (k ≤ n)%nat ∧ (withRetry operation config w).2 = worldAfter operation k w)
  ∧ (∀ (j : nat) v,
       (j < n)%nat → (∀ i : nat, (i < j)%nat → retriedAt operation retryableErrors i w) →
       settles operation j w = Resolved v →
       withRetry operation config w = (Returned v, worldAfter operation (S j) w))
  ∧ (∀ (j : nat) error e,
       (j < n)%nat → (∀ i : nat, (i < j)%nat → retriedAt operation retryableErrors i w) →
       settles operation j w = Rejected error →
       asFigmaContextError error = Ok e →
       fe_retryable e = false ∨ includesType retryableErrors (fe_type e) = false →
       withRetry operation config w = (Threw (Some e), worldAfter operation (S j) w))
  ∧ (∀ (j : nat) error e,
       S j = n → (∀ i : nat, (i < j)%nat → retriedAt operation retryableErrors i w) →
       settles operation j w = Rejected error →
       asFigmaContextError error = Ok e →
       withRetry operation config w = (Threw (Some e), worldAfter operation n w))
  ∧ (∀ (j : nat) error x,
       (j < n)%nat → (∀ i : nat, (i < j)%nat → retriedAt operation retryableErrors i w) →
       settles operation j w = Rejected error →
       asFigmaContextError error = Throw x →
       withRetry operation config w = (ThrewOther x, worldAfter operation (S j) w)).
Proof.
  intros m types n.
  set (cfg := finalConfig config).
  assert (Hm : maxAttempts cfg = m) by reflexivity.
  assert (Htypes : ∀ i, retriedAt operation types i w → failsRetryably operation cfg i w)
    by (intros i H; exact H).
  split.
  { unfold withRetry. fold cfg. rewrite Hm. apply retryLoop_calls. }
  assert (Hinv : (1 + Z.of_nat n = maxAttempts cfg + 1)%Z ∨ n = 0).
  { rewrite Hm. unfold n. destruct (Z.le_gt_cases 0 m); [left | right]; lia. }
  assert (Hloop : withRetry operation config w = retryLoop operation cfg n 1%Z None w)
    by reflexivity.
  rewrite Hloop. split; [|split; [|split]].
  - intros j v Hj Hbefore Hset. destruct Hinv as [Hinv|]; [|lia].
    rewrite (retryLoop_stops operation cfg j n 1%Z None w Hinv Hj
               (λ i Hi, Htypes i (Hbefore i Hi))).
    + unfold outcomeAt. rewrite Hset. reflexivity.
    + intros error e He. congruence.
  - intros j error e Hj Hbefore Hset Hcat Hnon. destruct Hinv as [Hinv|]; [|lia].
    rewrite (retryLoop_stops operation cfg j n 1%Z None w Hinv Hj
               (λ i Hi, Htypes i (Hbefore i Hi))).
    + unfold outcomeAt. rewrite Hset, Hcat. reflexivity.
    + intros e' c' He' Hc'. right. assert (c' = e) as -> by congruence.
      change (fe_retryable e && includesType types (fe_type e) = false).
      destruct Hnon as [-> | ->]; [reflexivity | apply andb_false_r].
  - intros j error e Hj Hbefore Hset Hcat. destruct Hinv as [Hinv|]; [|lia].
    rewrite (retryLoop_stops operation cfg j n 1%Z None w Hinv ltac:(lia)
               (λ i Hi, Htypes i (Hbefore i Hi))).
    + unfold outcomeAt. rewrite Hset, Hcat, Hj. reflexivity.
    + intros e' c' He' Hc'. left. exact Hj.
  - intros j error x Hj Hbefore Hset Hcat. destruct Hinv as [Hinv|]; [|lia].
    rewrite (retryLoop_stops operation cfg j n 1%Z None w Hinv Hj
               (λ i Hi, Htypes i (Hbefore i Hi))).
    + unfold outcomeAt. rewrite Hset, Hcat. reflexivity.
    + intros e' c' He' Hc'. congruence.
Qed.

(** ** The input tree is left as it was *)

Lemma applyExtractorsMut_leaves extractors node :
  Forall leavesNode extractors →
  ∀ result context,
    applyExtractorsMut extractors node result context
    = (node, (applyExtractors (map effectOf extractors) node result context).1,
             (applyExtractors (map effectOf extractors) node result context).2).
Proof.
  induction 1 as [|e es He _ IH]; intros result context; simpl; [reflexivity|].
  unfold effectOf at 1 3. specialize (He node result context).
  destruct (e node result context) as [node' [f g]]. simpl in He. subst node'. simpl.
  apply IH.
Qed.

Lemma filterMapMut_sound {A B S} (p : A → bool)
    (f : A → S → Res (A * option B * S)) (f0 : A → S → Res (option B * S)) xs :
  (∀ x s x' o s', f x s = Ok (x', o, s') → x' = x ∧ f0 x s = Ok (o, s')) →
  ∀ s xs' rs s',
    filterMapMut p f xs s = Ok (xs', rs, s') →
    xs' = xs ∧ filterMapM p f0 xs s = Ok (rs, s').
Proof.
  intros Hf. induction xs as [|x xs IH]; intros s xs' rs s' E; simpl in E.
  - injection E as <- <- <-. auto.
  - rewrite filterMapM_cons. destruct (p x).
    + inv_bind E. destruct a as [[x' o] s1]. inv_bind E. destruct a as [[xs'' rs1] s2].
      injection E as <- <- <-. destruct (Hf _ _ _ _ _ Ha) as [-> Hf0].
      rewrite Hf0, Ok_bind. destruct (IH _ _ _ _ Ha0) as [-> ->]. auto.
    + inv_bind E. destruct a as [[xs'' rs1] s2]. injection E as <- <- <-.
      destruct (IH _ _ _ _ Ha) as [-> ->]. auto.
Qed.

Lemma filterMapMut_complete {A B S} (p : A → bool)
    (f : A → S → Res (A * option B * S)) (f0 : A → S → Res (option B * S)) xs :
  Forall (λ x, p x = true → ∀ s, f x s = ('(o, s') ← f0 x s; Ok (x, o, s'))) xs →
  ∀ s, filterMapMut p f xs s = ('(rs, s') ← filterMapM p f0 xs s; Ok (xs, rs, s')).
Proof.
  induction 1 as [|x xs Hx _ IH]; intros s; [reflexivity|].
  rewrite filterMapM_cons. simpl filterMapMut. destruct (p x).
  - rewrite (Hx eq_refl). destruct (f0 x s) as [[o s1]|e]; [|reflexivity].
    rewrite !Ok_bind, IH.
    destruct (filterMapM p f0 xs s1) as [[rs s2]|e]; reflexivity.
  - rewrite IH. destruct (filterMapM p f0 xs s) as [[rs s2]|e]; reflexivity.
Qed.

Lemma withRawChildren_same node children :
  n_children node = Some (ChArray children) → withRawChildren node children = node.
Proof. destruct node. simpl. intros ->. reflexivity. Qed.

(** Whatever the stack, a call that returns leaves the node as it was and
    returns what the engine over values returns. *)
Lemma processNodeWithExtractorsMut_sound extractors options :
  Forall leavesNode extractors →
  ∀ stack node context node' o g,
    processNodeWithExtractorsMut stack node extractors context options = Ok (node', o, g) →
    node' = node
    ∧ processNodeWithExtractors node (map effectOf extractors) context options = Ok (o, g).
Proof.
  intros Hleave. induction stack as [|stack IH]; intros node context node' o g E;
    [discriminate|].
  rewrite processNodeWithExtractors_eq. simpl in E.
  destruct (shouldProcessNode node options); simpl in *; [|injection E as <- <- <-; auto].
  rewrite (applyExtractorsMut_leaves _ _ Hleave) in E.
  destruct (applyExtractors (map effectOf extractors) node (baseResult node) context)
    as [result g0]. simpl in E.
  destruct (shouldTraverseChildren node context options); [|injection E as <- <- <-; auto].
  destruct (n_children node) as [[|[|]|[|c children]]|] eqn:Hch; try not_an_array;
    try (injection E as <- <- <-; auto).
  inv_bind E. rename a into keep. rewrite Ha, Ok_bind. inv_bind E.
  destruct a as [[children' cs] g']. injection E as <- <- <-.
  eapply filterMapMut_sound in Ha0 as [-> ->]; [|intros x s x' ox s'; apply IH].
  split; [apply withRawChildren_same; exact Hch | reflexivity].
Qed.

Lemma height_child node children c :
  n_children node = Some (ChArray children) → c ∈ children → (height c < height node)%nat.
Proof.
  destruct node as [? ? ? ? cs ? ?]. simpl. intros -> Hc.
  induction Hc as [c l|c c' l _ IH]; simpl; lia.
Qed.

(** With a stack as deep as the tree, the call returns whenever the engine
    over values does, with the same results. *)
Lemma processNodeWithExtractorsMut_complete extractors options :
  Forall leavesNode extractors →
  ∀ (stack : nat) node context,
    (height node ≤ stack)%nat →
    processNodeWithExtractorsMut stack node extractors context options
    = ('(o, g) ← processNodeWithExtractors node (map effectOf extractors) context options;
       Ok (node, o, g)).
Proof.
  intros Hleave. induction stack as [|stack IH]; intros node context Hh.
  { destruct node; simpl in Hh; lia. }
  rewrite processNodeWithExtractors_eq. simpl processNodeWithExtractorsMut.
  destruct (shouldProcessNode node options); simpl negb; cbv iota; [|reflexivity].
  rewrite (applyExtractorsMut_leaves _ _ Hleave).
  destruct (applyExtractors (map effectOf extractors) node (baseResult node) context)
    as [result g0]. simpl fst. simpl snd.
  destruct (shouldTraverseChildren node context options); [|reflexivity].
  destruct (n_children node) as [[|[|]|[|c children]]|] eqn:Hch; try reflexivity;
    try (destruct (childrenToProcess node options); reflexivity).
  destruct (childrenToProcess node options) as [keep|e]; [|reflexivity].
  rewrite !Ok_bind.
  rewrite (filterMapMut_complete _ _
             (λ child g', processNodeWithExtractors child (map effectOf extractors)
                            (childContext node context g') options)).
  - destruct (filterMapM _ _ (c :: children) g0) as [[cs g']|e]; [|reflexivity].
    rewrite !Ok_bind. rewrite (withRawChildren_same _ _ Hch). reflexivity.
  - rewrite Forall_forall. intros x Hx _ s. apply IH.
    pose proof (height_child _ _ _ Hch Hx). lia.
Qed.

Lemma extractFromDesignMut_sound rawNodes extractors options globalVars :
  Forall leavesNode extractors →
  ∀ stack rawNodes' out,
    extractFromDesignMut stack rawNodes extractors options globalVars
      = Ok (rawNodes', out) →
    rawNodes' = rawNodes
    ∧ extractFromDesign rawNodes (map effectOf extractors) options globalVars = Ok out.
Proof.
  intros Hleave stack rawNodes' out E. unfold extractFromDesignMut in E. inv_bind E.
  destruct a as [[rs' processed] g]. injection E as <- <-.
  eapply filterMapMut_sound in Ha as [-> Hpure];
    [|intros x s x' o s'; apply processNodeWithExtractorsMut_sound; exact Hleave].
  split; [reflexivity|]. unfold extractFromDesign. rewrite Hpure. reflexivity.
Qed.

Lemma extractFromDesignMut_complete rawNodes extractors options globalVars :
  Forall leavesNode extractors →
  ∀ (stack : nat) out,
    Forall (λ node, (height node ≤ stack)%nat) rawNodes →
    extractFromDesign rawNodes (map effectOf extractors) options globalVars = Ok out →
    extractFromDesignMut stack rawNodes extractors options globalVars
      = Ok (rawNodes, out).
Proof.
  intros Hleave stack out Hh E. unfold extractFromDesignMut.
  rewrite (filterMapMut_complete _ _
    (λ node g, processNodeWithExtractors node (map effectOf extractors)
       (withGlobalVars {| c_globalVars := globalVars; c_currentDepth := 0;
                          c_options := options; c_parent := None |} g) options)).
  - unfold extractFromDesign in E. inv_bind E. destruct a as [processed g].
    injection E as <-. rewrite Ha. reflexivity.
  - eapply Forall_impl; [exact Hh|]. intros x Hx _ s.
    apply processNodeWithExtractorsMut_complete; assumption.
Qed.

Lemma readOnly_leavesNode (extractors : list ExtractorFn) :
  Forall leavesNode (map readOnly extractors).
Proof. induction extractors; constructor; [intros ? ? ?; reflexivity | assumption]. Qed.

Lemma effectOf_readOnly (extractors : list ExtractorFn) :
  map effectOf (map readOnly extractors) = extractors.
Proof. induction extractors as [|e es IH]; simpl; [|rewrite IH]; reflexivity. Qed.

(** The two embeddings agree on extractors of the specified shape: what
    the engine over values returns is what the pass returns, with the tree
    left as it was, when the call stack is as deep as the trees. *)
Lemma extractFromDesignMut_readOnly rawNodes (extractors : list ExtractorFn)
    options globalVars (stack : nat) out :
  Forall (λ node, (height node ≤ stack)%nat) rawNodes →
  extractFromDesign rawNodes extractors options globalVars = Ok out →
  extractFromDesignMut stack rawNodes (map readOnly extractors) options globalVars
    = Ok (rawNodes, out).
Proof.
  intros Hh E. apply extractFromDesignMut_complete;
    [apply readOnly_leavesNode | exact Hh | rewrite effectOf_readOnly; exact E].
Qed.

(** C9.  When no extractor assigns to its node argument, a pass that
    returns leaves every input node as it was, and returns what the engine
    over values returns; and with a call stack as deep as the trees, the
    pass returns whenever that engine does. *)
Theorem input_tree_is_not_mutated
    (rawNodes : list RawNode) (extractors : list MutExtractorFn)
    (options : TraversalOptions) (globalVars : GlobalVars) :
  Forall leavesNode extractors →
  (∀ stack rawNodes' out,
     extractFromDesignMut stack rawNodes extractors options globalVars
       = Ok (rawNodes', out) →
     rawNodes' = rawNodes
     ∧ extractFromDesign rawNodes (map effectOf extractors) options globalVars = Ok out)
  ∧ (∀ (stack : nat) out,
       Forall (λ node, (height node ≤ stack)%nat) rawNodes →
       extractFromDesign rawNodes (map effectOf extractors) options globalVars = Ok out →
       extractFromDesignMut stack rawNodes extractors options globalVars
         = Ok (rawNodes, out)).
Proof.
  intros Hleave. split.
  - apply extractFromDesignMut_sound. exact Hleave.
  - apply extractFromDesignMut_complete. exact Hleave.
Qed.

(** * The properties on the sample inputs *)

Lemma hidden_subtrees_are_excluded_witness :
  extractFromDesign sample_hidden [] no_options empty_table = Ok sample_hidden_out
  ∧ (∀ root k o, root ∈ r_nodes sample_hidden_out → occursAt k root o →
       ∃ raw n, raw ∈ sample_hidden ∧ pathAt shown k raw n ∧ baseOf n o)
  ∧ (∀ extractors',
       (∀ raw k n, raw ∈ sample_hidden → pathAt shown k raw n →
                   Forall2 (agreeOn n) [] extractors') →
       extractFromDesign sample_hidden extractors' no_options empty_table
       = Ok sample_hidden_out).
Proof.
  split; [vm_compute; reflexivity|].
  apply (hidden_subtrees_are_excluded sample_hidden [] no_options empty_table
           sample_hidden_out).
  vm_compute. reflexivity.
Defined.

Lemma depth_bound_is_inclusive_witness :
  maxDepth depth_one = Some 1%Z
  ∧ extractFromDesign sample_deep [] depth_one empty_table = Ok sample_deep_out
  ∧ (∀ root k o, root ∈ r_nodes sample_deep_out → occursAt k root o →
                 (Z.of_nat k ≤ Z.max 0 1)%Z)
  ∧ (∀ root k o, root ∈ r_nodes sample_deep_out → occursAt k root o →
                 (1 ≤ Z.of_nat k)%Z → s_children o = None)
  ∧ (∀ extractors' globalVars' unbounded,
       extractFromDesign sample_deep extractors' (withMaxDepth depth_one None) globalVars'
         = Ok unbounded →
       map shapeOf (r_nodes sample_deep_out)
       = map (truncate (Z.to_nat 1)) (map shapeOf (r_nodes unbounded))).
Proof.
  split; [reflexivity|]. split; [vm_compute; reflexivity|].
  apply (depth_bound_is_inclusive sample_deep [] depth_one empty_table 1%Z sample_deep_out).
  - reflexivity.
  - vm_compute. reflexivity.
Defined.

Lemma instance_children_follow_overrides_witness :
  n_type sample_overridden = "INSTANCE"
  ∧ includeFullInstanceData no_options = false
  ∧ processNodeWithExtractors sample_overridden [] (root_context no_options) no_options
    = Ok (Some sample_overridden_out, empty_table)
  ∧ (∃ o, o ∈ childrenOf sample_overridden_out ∧ baseOf (sample_leaf "X" None) o)
  ∧ ∃ kept,
      sublist kept sample_instance_children
      ∧ Forall2 baseOf kept (childrenOf sample_overridden_out)
      ∧ sample_leaf "Y" None ∉ kept.
Proof.
  assert (Htype : n_type sample_overridden = "INSTANCE") by reflexivity.
  assert (Hfull : includeFullInstanceData no_options = false) by reflexivity.
  assert (Hcall : processNodeWithExtractors sample_overridden [] (root_context no_options)
                    no_options = Ok (Some sample_overridden_out, empty_table))
    by (vm_compute; reflexivity).
  split; [exact Htype|]. split; [exact Hfull|]. split; [exact Hcall|].
  destruct (instance_children_follow_overrides _ _ _ _ _ _ Htype Hfull Hcall)
    as (_ & Hsome).
  destruct (Hsome [sample_override] sample_instance_children eq_refl
              ltac:(discriminate) eq_refl ltac:(discriminate))
    as (Htarget & _ & kept & Hsub & HF & Hmem).
  split.
  - apply (Htarget (sample_leaf "X" None)).
    + left.
    + exists sample_override, "I1;X". split; [left|]. split; reflexivity.
    + reflexivity.
  - exists kept. split; [exact Hsub|]. split; [exact HF|].
    intros Hin. apply Hmem in Hin as (_ & _ & [Ht|Hh]).
    + destruct Ht as (ov & id & Hov & Hid & Ht).
      apply list_elem_of_singleton in Hov. subst ov. simpl in Hid.
      injection Hid as <-. vm_compute in Ht. discriminate.
    + destruct Hh as (gc & gcs & Hch). discriminate.
Defined.

(** An instance whose override hides its target: the target ["X"] is a
    child of the instance and is named by an override, and the output has
    no child ["X"], against C3 as the specification words it. *)
Lemma instance_hidden_target_counterexample :
  n_type sample_hides_target = "INSTANCE"
  ∧ includeFullInstanceData no_options = false
  ∧ (∃ ov id, n_overrides sample_hides_target = Some (OvArray [ov])
              ∧ ov_id ov = Some id ∧ overrideTargetId id = Some "X")
  ∧ (∃ c children, n_children sample_hides_target = Some (ChArray children)
                   ∧ c ∈ children ∧ n_id c = "X")
  ∧ ∃ r, processNodeWithExtractors sample_hides_target [] (root_context no_options)
           no_options = Ok (Some r, empty_table)
         ∧ ¬ ∃ o, o ∈ childrenOf r ∧ s_id o = "X".
Proof.
  split; [reflexivity|]. split; [reflexivity|]. split.
  { eexists _, _. split; [reflexivity|]. split; reflexivity. }
  split.
  { eexists _, _. split; [reflexivity|]. split; [left | reflexivity]. }
  exists (sample_output "1" "instance 1" "INSTANCE" None).
  split; [vm_compute; reflexivity|].
  intros (o & Hin & _). inversion Hin.
Qed.

Lemma base_fields_always_populated_witness :
  processNodeWithExtractors sample_vector [] (root_context no_options) no_options
  = Ok (Some (sample_output "9" "icon" "IMAGE-SVG" None), empty_table)
  ∧ s_id (sample_output "9" "icon" "IMAGE-SVG" None) = n_id sample_vector
  ∧ s_name (sample_output "9" "icon" "IMAGE-SVG" None) = n_name sample_vector
  ∧ (n_type sample_vector = "VECTOR" →
     s_type (sample_output "9" "icon" "IMAGE-SVG" None) = "IMAGE-SVG")
  ∧ (n_type sample_vector ≠ "VECTOR" →
     s_type (sample_output "9" "icon" "IMAGE-SVG" None) = n_type sample_vector).
Proof.
  split; [vm_compute; reflexivity|].
  apply (base_fields_always_populated sample_vector [] (root_context no_options)
           no_options _ empty_table).
  vm_compute. reflexivity.
Defined.

Lemma no_empty_children_field_witness :
  processNodeWithExtractors (sample_frame "1" None [ sample_leaf "2" (Some false) ]) []
    (root_context no_options) no_options
  = Ok (Some (sample_output "1" "frame 1" "FRAME" None), empty_table)
  ∧ s_children (sample_output "1" "frame 1" "FRAME" None) = None
  ∧ ∀ root k o, root ∈ r_nodes sample_hidden_out → occursAt k root o →
                s_children o ≠ Some [].
Proof.
  assert (Hcall : processNodeWithExtractors
                    (sample_frame "1" None [ sample_leaf "2" (Some false) ]) []
                    (root_context no_options) no_options
                  = Ok (Some (sample_output "1" "frame 1" "FRAME" None), empty_table))
    by (vm_compute; reflexivity).
  split; [exact Hcall|]. split.
  - apply (proj1 no_empty_children_field _ _ _ _ _ _ (λ _, true) Hcall); reflexivity.
  - intros root k o. apply (proj2 no_empty_children_field sample_hidden [] no_options
                              empty_table sample_hidden_out root k o).
    vm_compute. reflexivity.
Defined.

Lemma sample_extractor_leavesNode : Forall leavesNode [ sample_extractor ].
Proof. constructor; [|constructor]. intros node result context. reflexivity. Defined.

Lemma input_tree_is_not_mutated_witness :
  Forall leavesNode [ sample_extractor ]
  ∧ (∀ stack rawNodes' out,
       extractFromDesignMut stack sample_hidden [ sample_extractor ] no_options empty_table
         = Ok (rawNodes', out) →
       rawNodes' = sample_hidden
       ∧ extractFromDesign sample_hidden (map effectOf [ sample_extractor ]) no_options
           empty_table = Ok out)
  ∧ extractFromDesignMut 3 sample_hidden [ sample_extractor ] no_options empty_table
    = Ok (sample_hidden, sample_hidden_styled).
Proof.
  split; [exact sample_extractor_leavesNode|].
  destruct (input_tree_is_not_mutated sample_hidden [ sample_extractor ] no_options
              empty_table sample_extractor_leavesNode) as [Hsound Hcomplete].
  split; [exact Hsound|].
  apply Hcomplete.
  - constructor; [vm_compute; lia | constructor].
  - vm_compute. reflexivity.
Defined.

Lemma withRetry_attempts_witness :
  withRetry sample_operation noConfig 0%nat = (Returned "data", 3%nat)
  ∧ withRetry sample_operation one_attempt 0%nat
    = (Threw (Some (newFigmaContextError "Network down" NETWORK_ERROR None None)), 1%nat)
  ∧ withRetry sample_operation only_rate_limits 0%nat
    = (Threw (Some (newFigmaContextError "Network down" NETWORK_ERROR None None)), 1%nat)
  ∧ withRetry sample_not_found noConfig 0%nat
    = (Threw (Some (newFigmaContextError "HTTP 404: Not Found" NOT_FOUND_ERROR
                      (Some 404%Z) None)), 1%nat)
  ∧ withRetry sample_unavailable noConfig 0%nat
    = (Threw (Some (newFigmaContextError "HTTP 503: Service Unavailable" API_ERROR
                      (Some 503%Z) (Some true))), 3%nat)
  ∧ withRetry sample_throws_null noConfig 0%nat
    = (ThrewOther (TypeError "Cannot read properties of null (reading 'status')"), 1%nat).
Proof.
  split; [|split; [|split; [|split; [|split]]]].
  - etransitivity;
      [apply (proj1 (proj2 (withRetry_attempts sample_operation noConfig 0%nat))
                2%nat "data")
      | vm_compute; reflexivity].
    + vm_compute. lia.
    + intros i Hi. destruct i as [|[|i]]; [| |lia];
        (eexists _, _; split; [reflexivity|]; split; [reflexivity | vm_compute; reflexivity]).
    + reflexivity.
  - etransitivity;
      [apply (proj1 (proj2 (proj2 (proj2
                (withRetry_attempts sample_operation one_attempt 0%nat)))) 0%nat
                (ThrownOther {| e_status := None; e_statusCode := None;
                                e_text := "Network down" |})
                (newFigmaContextError "Network down" NETWORK_ERROR None None))
      | vm_compute; reflexivity].
    + reflexivity.
    + intros i Hi. lia.
    + reflexivity.
    + vm_compute. reflexivity.
  - etransitivity;
      [apply (proj1 (proj2 (proj2
                (withRetry_attempts sample_operation only_rate_limits 0%nat))) 0%nat
                (ThrownOther {| e_status := None; e_statusCode := None;
                                e_text := "Network down" |})
                (newFigmaContextError "Network down" NETWORK_ERROR None None))
      | vm_compute; reflexivity].
    + vm_compute. lia.
    + intros i Hi. lia.
    + reflexivity.
    + vm_compute. reflexivity.
    + right. vm_compute. reflexivity.
  - etransitivity;
      [apply (proj1 (proj2 (proj2
                (withRetry_attempts sample_not_found noConfig 0%nat))) 0%nat
                (ThrownOther {| e_status := Some 404%Z; e_statusCode := None;
                                e_text := "HTTP 404: Not Found" |})
                (newFigmaContextError "HTTP 404: Not Found" NOT_FOUND_ERROR
                   (Some 404%Z) None))
      | vm_compute; reflexivity].
    + vm_compute. lia.
    + intros i Hi. lia.
    + reflexivity.
    + vm_compute. reflexivity.
    + left. vm_compute. reflexivity.
  - etransitivity;
      [apply (proj1 (proj2 (proj2 (proj2
                (withRetry_attempts sample_unavailable noConfig 0%nat)))) 2%nat
                (ThrownOther {| e_status := Some 503%Z; e_statusCode := None;
                                e_text := "HTTP 503: Service Unavailable" |})
                (newFigmaContextError "HTTP 503: Service Unavailable" API_ERROR
                   (Some 503%Z) (Some true)))
      | vm_compute; reflexivity].
    + reflexivity.
    + intros i Hi. destruct i as [|[|i]]; [| |lia];
        (eexists _, _; split; [reflexivity|]; split; [reflexivity | vm_compute; reflexivity]).
    + reflexivity.
    + vm_compute. reflexivity.
  - etransitivity;
      [apply (proj2 (proj2 (proj2 (proj2
                (withRetry_attempts sample_throws_null noConfig 0%nat)))) 0%nat
                ThrownNull
                (TypeError "Cannot read properties of null (reading 'status')"))
      | vm_compute; reflexivity].
    + vm_compute. lia.
    + intros i Hi. lia.
    + reflexivity.
    + reflexivity.
Defined.

(** * Further properties of the traversal engine *)

Lemma filterMapM_endAlike {A B B' S S'} (p : A → bool)
    (f : A → S → Res (option B * S)) (f' : A → S' → Res (option B' * S'))
    (R : B → B' → Prop) xs :
  Forall (λ x, p x = true → ∀ s s', endAlike (option_Forall2 R) (f x s) (f' x s')) xs →
  ∀ s s', endAlike (Forall2 R) (filterMapM p f xs s) (filterMapM p f' xs s').
Proof.
  induction 1 as [|x xs Hx _ IH]; intros s s'; [constructor|].
  rewrite (filterMapM_cons p f). rewrite (filterMapM_cons p f').
  destruct (p x) eqn:Hp; [|apply IH].
  specialize (Hx eq_refl s s'). unfold endAlike in Hx.
  destruct (f x s) as [[o s1]|e], (f' x s') as [[o' s1']|e']; try contradiction.
  - rewrite !Ok_bind. specialize (IH s1 s1'). unfold endAlike in IH |- *.
    destruct (filterMapM p f xs s1) as [[rs s2]|e],
             (filterMapM p f' xs s1') as [[rs' s2']|e']; try contradiction; simpl.
    + destruct Hx; [constructor|]; assumption.
    + exact IH.
  - exact Hx.
Qed.

(** The structure of what a call returns, and the exception it throws,
    do not depend on the extractors nor on the style table. *)
Lemma processNodeWithExtractors_endAlike extractors extractors' options node :
  ∀ context context',
    c_currentDepth context' = c_currentDepth context →
    endAlike (option_Forall2 (λ r r', shapeOf r = shapeOf r'))
      (processNodeWithExtractors node extractors context options)
      (processNodeWithExtractors node extractors' context' options).
Proof.
  induction node as [node IH] using RawNode_ind'. intros context context' Hdepth.
  rewrite !processNodeWithExtractors_eq.
  destruct (shouldProcessNode node options); simpl negb; cbv iota; [|constructor].
  pose proof (applyExtractors_base extractors node (baseResult node) context) as Hb.
  pose proof (applyExtractors_base extractors' node (baseResult node) context') as Hb'.
  destruct (applyExtractors extractors node (baseResult node) context) as [result g].
  destruct (applyExtractors extractors' node (baseResult node) context') as [result' g'].
  simpl in Hb, Hb'. destruct Hb as (Hi & Hn & Ht & Hc), Hb' as (Hi' & Hn' & Ht' & Hc').
  assert (Hleaf : shapeOf result = shapeOf result').
  { rewrite !shapeOf_eq. congruence. }
  assert (Htrav : shouldTraverseChildren node context' options
                  = shouldTraverseChildren node context options).
  { unfold shouldTraverseChildren. rewrite Hdepth. reflexivity. }
  rewrite Htrav.
  destruct (shouldTraverseChildren node context options); [|constructor; exact Hleaf].
  specialize (IH (rawChildren node)). unfold rawChildren in IH.
  destruct (n_children node) as [[|[|]|[|c children]]|]; try (constructor; exact Hleaf);
    try reflexivity; try (destruct (childrenToProcess node options); reflexivity).
  destruct (childrenToProcess node options) as [keep|e]; [|reflexivity].
  rewrite !Ok_bind. specialize (IH eq_refl). cbv beta iota in IH.
  pose proof (filterMapM_endAlike
                (λ child, keep child && shouldProcessNode child options)
                (λ child g0, processNodeWithExtractors child extractors
                               (childContext node context g0) options)
                (λ child g0, processNodeWithExtractors child extractors'
                               (childContext node context' g0) options)
                (λ r r', shapeOf r = shapeOf r') (c :: children)) as Hwalk.
  specialize (Hwalk ltac:(eapply Forall_impl; [exact IH|];
                          intros x Hx _ s s'; apply Hx; simpl; lia) g g').
  unfold endAlike in Hwalk |- *.
  destruct (filterMapM _ _ (c :: children) g) as [[cs g1]|e],
           (filterMapM _ _ (c :: children) g') as [[cs' g1']|e'];
    try contradiction; simpl; [|exact Hwalk].
  constructor. destruct Hwalk as [|x x' cs cs' Hx Hcs]; [exact Hleaf|].
  rewrite !shapeOf_eq. simpl. f_equal; try congruence. f_equal. f_equal; [exact Hx|].
  clear - Hcs. induction Hcs as [|? ? ? ? H _ IH]; simpl; [reflexivity|]. congruence.
Qed.

(** With extractors that return, two passes over the same input with the
    same options end alike, and emit trees of the same shape. *)
Lemma extractFromDesign_endAlike
    (rawNodes : list RawNode) (extractors extractors' : list ExtractorFn)
    (options : TraversalOptions) (globalVars globalVars' : GlobalVars) :
  shapesOf (extractFromDesign rawNodes extractors options globalVars)
  = shapesOf (extractFromDesign rawNodes extractors' options globalVars').
Proof.
  unfold extractFromDesign.
  pose proof (filterMapM_endAlike
    (λ node, shouldProcessNode node options)
    (λ node g, processNodeWithExtractors node extractors
       (withGlobalVars {| c_globalVars := globalVars; c_currentDepth := 0;
                          c_options := options; c_parent := None |} g) options)
    (λ node g, processNodeWithExtractors node extractors'
       (withGlobalVars {| c_globalVars := globalVars'; c_currentDepth := 0;
                          c_options := options; c_parent := None |} g) options)
    (λ r r', shapeOf r = shapeOf r') rawNodes) as Hwalk.
  specialize (Hwalk ltac:(rewrite Forall_forall; intros x _ _ s s';
                          apply processNodeWithExtractors_endAlike; reflexivity)
                    globalVars globalVars').
  unfold endAlike in Hwalk.
  destruct (filterMapM _ _ rawNodes globalVars) as [[rs g]|e],
           (filterMapM _ _ rawNodes globalVars') as [[rs' g']|e'];
    try contradiction; simpl; [|congruence].
  f_equal. clear - Hwalk. induction Hwalk as [|? ? ? ? H _ IH]; simpl; [reflexivity|].
  congruence.
Qed.

Lemma processNodeWithExtractors_embeds extractors options node :
  ∀ context r g,
    processNodeWithExtractors node extractors context options = Ok (Some r, g) →
    embeds node r.
Proof.
  induction node as [node IH] using RawNode_ind'. intros context r g E.
  apply processNodeWithExtractors_cases in E as (Hbase & Hc).
  destruct Hc as [[_ Hnone]|(keep & g0 & cs & _ & _ & _ & Hwalk & Hch)].
  - apply (embeds_node node r []); [exact Hbase | apply sublist_nil_l |].
    unfold childrenOf. rewrite Hnone. constructor.
  - apply (embeds_node node r
             (List.filter (λ child, keep child && shouldProcessNode child options)
                (rawChildren node)));
      [exact Hbase | apply sublist_List_filter |].
    assert (childrenOf r = cs) as ->.
    { unfold childrenOf. rewrite Hch. destruct cs; reflexivity. }
    eapply filterMapM_Forall2; [|exact Hwalk].
    unfold rawChildren.
    destruct (n_children node) as [[|?|children]|]; try (constructor; fail).
    specialize (IH _ eq_refl). eapply Forall_impl; [exact IH|].
    intros x Hx Hp s o s' Ex. apply andb_true_iff in Hp as [_ Hgate].
    destruct (processNodeWithExtractors_Some _ _ _ _ _ _ Hgate Ex) as [rx ->].
    eauto.
Qed.

Lemma processNodeWithExtractors_embeds_roots rawNodes extractors options globalVars out :
  extractFromDesign rawNodes extractors options globalVars = Ok out →
  Forall2 embeds (List.filter (λ node, shouldProcessNode node options) rawNodes)
    (r_nodes out).
Proof.
  intros E. apply extractFromDesign_inv in E.
  eapply filterMapM_Forall2; [|exact E]. rewrite Forall_forall.
  intros x _ Hgate s o s' Ex.
  destruct (processNodeWithExtractors_Some _ _ _ _ _ _ Hgate Ex) as [rx ->].
  exists rx. split; [reflexivity|]. eapply processNodeWithExtractors_embeds. exact Ex.
Qed.

(** X2.  The output of a pass is the input with subtrees deleted and
    nothing else: the output roots are, in order, the images of the input
    roots that pass the visibility gate and the custom filter, one for
    each, and below every output node the children are, in order, images of
    some of the children of its input node.  No node is duplicated, moved
    or made up. *)
Theorem output_embeds_in_input
    (rawNodes : list RawNode) (extractors : list ExtractorFn)
    (options : TraversalOptions) (globalVars : GlobalVars) (out : Extracted) :
  extractFromDesign rawNodes extractors options globalVars = Ok out →
  Forall2 embeds (List.filter (λ node, shouldProcessNode node options) rawNodes)
    (r_nodes out).
Proof.
  intros E. apply extractFromDesign_inv in E.
  eapply filterMapM_Forall2; [|exact E]. rewrite Forall_forall.
  intros x _ Hgate s o s' Ex.
  destruct (processNodeWithExtractors_Some _ _ _ _ _ _ Hgate Ex) as [rx ->].
  exists rx. split; [reflexivity|]. eapply processNodeWithExtractors_embeds. exact Ex.
Qed.

Lemma rawSize_eq node :
  rawSize node = S (foldr Nat.add 0 (map rawSize (rawChildren node))).
Proof. destruct node as [? ? ? ? [[| |cs]|] ? ?]; reflexivity. Qed.

Lemma outSize_eq r :
  outSize r = S (foldr Nat.add 0 (map outSize (childrenOf r))).
Proof. destruct r as [? ? ? ? [cs|]]; reflexivity. Qed.

Lemma sum_sublist_Forall2 {A B} (f : A → nat) (h : B → nat) (R : A → B → Prop) l :
  Forall (λ x, ∀ y, R x y → (h y ≤ f x)%nat) l →
  ∀ kept ys, sublist kept l → Forall2 R kept ys →
    (foldr Nat.add 0 (map h ys) ≤ foldr Nat.add 0 (map f l))%nat.
Proof.
  induction 1 as [|x l Hx _ IH]; intros kept ys Hsub HF.
  - apply sublist_nil_r in Hsub as ->. inversion HF. simpl. lia.
  - inversion Hsub as [|a k1 l1 Hsub'|a k1 l1 Hsub']; subst.
    + inversion HF as [|a b k2 ys' Hab HF']; subst. simpl.
      specialize (IH _ _ Hsub' HF'). specialize (Hx _ Hab). lia.
    + specialize (IH _ _ Hsub' HF). simpl. lia.
Qed.

Lemma embeds_size node : ∀ r, embeds node r → (outSize r ≤ rawSize node)%nat.
Proof.
  induction node as [node IH] using RawNode_ind'. intros r Hemb.
  inversion Hemb as [? ? kept _ Hsub HF]; subst.
  rewrite rawSize_eq, outSize_eq. apply le_n_S.
  eapply sum_sublist_Forall2; [|exact Hsub|exact HF].
  unfold rawChildren.
  destruct (n_children node) as [[|?|children]|]; try (constructor; fail).
  exact (IH _ eq_refl).
Qed.

(** X3.  A pass never emits more nodes than it was given: the output trees
    have, together, at most as many nodes as the input trees. *)
Theorem output_is_not_larger_than_input
    (rawNodes : list RawNode) (extractors : list ExtractorFn)
    (options : TraversalOptions) (globalVars : GlobalVars) (out : Extracted) :
  extractFromDesign rawNodes extractors options globalVars = Ok out →
  (foldr Nat.add 0 (map outSize (r_nodes out))
   ≤ foldr Nat.add 0 (map rawSize rawNodes))%nat.
Proof.
  intros E.
  eapply (sum_sublist_Forall2 rawSize outSize embeds);
    [| apply (sublist_List_filter (λ node, shouldProcessNode node options))
     | eapply processNodeWithExtractors_embeds_roots; exact E ].
  rewrite Forall_forall. intros x _ y. apply embeds_size.
Qed.

Lemma shouldProcessNode_nodeFilter node options f :
  nodeFilter options = Some f → shouldProcessNode node options = true → f node = true.
Proof.
  unfold shouldProcessNode. intros ->. destruct (negb (isVisible node)); [discriminate|].
  destruct (f node); [reflexivity | discriminate].
Qed.

(** X4.  With a custom filter [f], every node of the output stems from an
    input node at the same depth that [f] accepts and all of whose
    ancestors [f] accepts: a node the filter rejects is left out together
    with all its descendants, whatever the filter says of them. *)
Theorem custom_filter_prunes_subtrees
    (rawNodes : list RawNode) (extractors : list ExtractorFn)
    (options : TraversalOptions) (globalVars : GlobalVars) (out : Extracted)
    (f : RawNode → bool) :
  nodeFilter options = Some f →
  extractFromDesign rawNodes extractors options globalVars = Ok out →
  ∀ root k o, root ∈ r_nodes out → occursAt k root o →
    ∃ raw n, raw ∈ rawNodes ∧ pathAt (λ x, f x = true) k raw n ∧ baseOf n o.
Proof.
  intros Hf E root k o Hroot Hocc.
  destruct (extractFromDesign_origin _ _ _ _ _ E _ _ _ Hroot Hocc)
    as (raw & n & context & g & Hraw & Hpath & Hcall & _).
  exists raw, n. split; [exact Hraw|]. split.
  - eapply pathAt_impl; [|exact Hpath]. intros x. apply shouldProcessNode_nodeFilter, Hf.
  - apply processNodeWithExtractors_cases in Hcall as [Hbase _]. exact Hbase.
Qed.

(** X5.  Outside instance pruning, that is for a node that is not an
    INSTANCE or when [includeFullInstanceData] is set, and above the depth
    bound, the output children are, in order, the outputs of all the
    children that pass the visibility gate and the custom filter: one for
    each, none left out. *)
Theorem unpruned_node_keeps_all_retained_children
    (node : RawNode) (extractors : list ExtractorFn) (context : TraversalContext)
    (options : TraversalOptions) (r : SimplifiedNode) (g : GlobalVars) :
  n_type node ≠ "INSTANCE" ∨ includeFullInstanceData options = true →
  (∀ d, maxDepth options = Some d → (Z.of_nat (c_currentDepth context) < d)%Z) →
  processNodeWithExtractors node extractors context options = Ok (Some r, g) →
  Forall2 baseOf
    (List.filter (λ child, shouldProcessNode child options) (rawChildren node))
    (childrenOf r).
Proof.
  intros Hplain Hdepth E.
  assert (Hinst : String.eqb (n_type node) "INSTANCE"
                  && negb (includeFullInstanceData options) = false).
  { destruct Hplain as [Ht|Hf].
    - apply String.eqb_neq in Ht. rewrite Ht. reflexivity.
    - rewrite Hf. apply andb_false_r. }
  destruct (children_field_spec _ _ _ _ _ _ E) as (_ & _ & Hspec).
  specialize (Hspec (λ _, true)). unfold selectedChildren in Hspec.
  assert (Htrav : shouldTraverseChildren node context options = true).
  { unfold shouldTraverseChildren. rewrite Hinst.
    destruct (maxDepth options) as [d|]; [|reflexivity].
    specialize (Hdepth d eq_refl).
    destruct (Z.leb_spec d (Z.of_nat (c_currentDepth context))); [lia | reflexivity]. }
  rewrite Htrav in Hspec. apply Hspec.
  unfold childrenToProcess. rewrite Hinst. reflexivity.
Qed.

Lemma noInstance_eq node :
  noInstance node
  = negb (String.eqb (n_type node) "INSTANCE")
    && forallb noInstance (rawChildren node).
Proof. destruct node as [? ? ? ? [[| |cs]|] ? ?]; reflexivity. Qed.

Lemma processNodeWithExtractors_returns_plain extractors options node :
  includeFullInstanceData options = true ∨ noInstance node = true →
  childrenAreArrays node = true →
  ∀ context, returns (processNodeWithExtractors node extractors context options).
Proof.
  induction node as [node IH] using RawNode_ind'. intros Hplain Harr context.
  rewrite processNodeWithExtractors_eq.
  destruct (shouldProcessNode node options); simpl; [|eexists; reflexivity].
  destruct (applyExtractors extractors node (baseResult node) context) as [result g].
  destruct (shouldTraverseChildren node context options); [|eexists; reflexivity].
  assert (Hkeep : childrenToProcess node options = Ok (λ _, true)).
  { unfold childrenToProcess. destruct Hplain as [Hf|Hn].
    - rewrite Hf. simpl. rewrite andb_false_r. reflexivity.
    - rewrite noInstance_eq in Hn. apply andb_true_iff in Hn as [Hn _].
      apply negb_true_iff in Hn. rewrite Hn. reflexivity. }
  rewrite childrenAreArrays_eq in Harr.
  specialize (IH (rawChildren node)). unfold rawChildren in IH.
  destruct (n_children node) as [[|[|]|[|c children]]|] eqn:Hch; try discriminate;
    try (eexists; reflexivity).
  specialize (IH eq_refl). cbv beta iota in IH. rewrite Hkeep, Ok_bind.
  edestruct (filterMapM_returns
               (λ child, true && shouldProcessNode child options)
               (λ child g', processNodeWithExtractors child extractors
                              (childContext node context g') options)
               (c :: children)) as [[cs g'] ->].
  - rewrite forallb_forall in Harr. rewrite Forall_forall in IH |- *.
    intros x Hx _ s. apply (IH x Hx); [|apply Harr; apply list_elem_of_In; exact Hx].
    destruct Hplain as [Hf|Hn]; [left; exact Hf | right].
    rewrite noInstance_eq in Hn. unfold rawChildren in Hn. rewrite Hch in Hn.
    apply andb_true_iff in Hn as [_ Hn].
    rewrite forallb_forall in Hn. apply Hn.
    apply list_elem_of_In. exact Hx.
  - eexists; reflexivity.
Qed.

Lemma extractFromDesign_returns_plain rawNodes extractors options globalVars :
  includeFullInstanceData options = true ∨ forallb noInstance rawNodes = true →
  forallb childrenAreArrays rawNodes = true →
  returns (extractFromDesign rawNodes extractors options globalVars).
Proof.
  intros Hplain Harr. unfold extractFromDesign.
  edestruct (filterMapM_returns
               (λ node, shouldProcessNode node options)
               (λ node g, processNodeWithExtractors node extractors
                  (withGlobalVars {| c_globalVars := globalVars; c_currentDepth := 0;
                                     c_options := options; c_parent := None |} g) options)
               rawNodes) as [[rs g] ->].
  - rewrite forallb_forall in Harr. rewrite Forall_forall. intros x Hx _ s.
    apply processNodeWithExtractors_returns_plain;
      [|apply Harr; apply list_elem_of_In; exact Hx].
    destruct Hplain as [Hf|Hn]; [left; exact Hf | right].
    rewrite forallb_forall in Hn. apply Hn. apply list_elem_of_In. exact Hx.
  - eexists; reflexivity.
Qed.

Lemma filterMapM_state {A B S} (p : A → bool) (f : A → S → Res (option B * S))
    (I : S → Prop) xs :
  Forall (λ x, p x = true → ∀ s o s', I s → f x s = Ok (o, s') → I s') xs →
  ∀ s rs s', I s → filterMapM p f xs s = Ok (rs, s') → I s'.
Proof.
  induction 1 as [|x xs Hx _ IH]; intros s rs s' Hs E.
  - injection E as _ <-. exact Hs.
  - rewrite filterMapM_cons in E. destruct (p x) eqn:Hp; [|eauto].
    inv_bind E. destruct a as [o s1]. inv_bind E. destruct a as [rs1 s2].
    injection E as _ <-. eauto.
Qed.

Lemma applyExtractors_state (I : GlobalVars → Prop) extractors node :
  Forall (λ e : ExtractorFn,
            ∀ n result context, I (c_globalVars context) → I (e n result context).2)
    extractors →
  ∀ result context,
    I (c_globalVars context) → I (applyExtractors extractors node result context).2.
Proof.
  induction 1 as [|e es He _ IH]; intros result context Hc; simpl; [exact Hc|].
  specialize (He node result context Hc).
  destruct (e node result context) as [f g]. apply IH. exact He.
Qed.

Lemma processNodeWithExtractors_state (I : GlobalVars → Prop) extractors options node :
  Forall (λ e : ExtractorFn,
            ∀ n result context, I (c_globalVars context) → I (e n result context).2)
    extractors →
  ∀ context o g,
    I (c_globalVars context) →
    processNodeWithExtractors node extractors context options = Ok (o, g) → I g.
Proof.
  intros Hexts. induction node as [node IH] using RawNode_ind'. intros context o g Hc.
  rewrite processNodeWithExtractors_eq.
  destruct (shouldProcessNode node options); simpl negb; cbv iota;
    [|intros [= _ <-]; exact Hc].
  pose proof (applyExtractors_state I extractors node Hexts (baseResult node) context Hc)
    as Hg0.
  destruct (applyExtractors extractors node (baseResult node) context) as [result g0].
  simpl in Hg0.
  destruct (shouldTraverseChildren node context options); [|intros [= _ <-]; exact Hg0].
  specialize (IH (rawChildren node)). unfold rawChildren in IH.
  destruct (n_children node) as [[|[|]|[|c children]]|]; try not_an_array;
    try (intros [= _ <-]; exact Hg0).
  intros E. inv_bind E. inv_bind E. destruct a0 as [cs g']. injection E as _ <-.
  eapply filterMapM_state; [|exact Hg0|exact Ha0].
  specialize (IH eq_refl). cbv beta iota in IH. eapply Forall_impl; [exact IH|].
  intros x Hx _ s ox s' Hs Ex. eapply Hx; [|exact Ex]. exact Hs.
Qed.

(** X7.  The engine itself never writes to the style table: whatever holds
    of the table the pass starts from, and is kept by every call of every
    extractor, holds of the table the pass returns.  In particular a pass
    without extractors returns the table it was given. *)
Theorem style_table_is_only_written_by_extractors
    (I : GlobalVars → Prop)
    (rawNodes : list RawNode) (extractors : list ExtractorFn)
    (options : TraversalOptions) (globalVars : GlobalVars) (out : Extracted) :
  Forall (λ e : ExtractorFn,
            ∀ n result context, I (c_globalVars context) → I (e n result context).2)
    extractors →
  I globalVars →
  extractFromDesign rawNodes extractors options globalVars = Ok out →
  I (r_globalVars out).
Proof.
  intros Hexts Hgv E. apply extractFromDesign_inv in E.
  eapply filterMapM_state; [|exact Hgv|exact E].
  rewrite Forall_forall. intros x _ _ s o s' Hs Ex.
  eapply processNodeWithExtractors_state; [exact Hexts| |exact Ex]. exact Hs.
Qed.

Lemma Shape_ind' (P : Shape → Prop) :
  (∀ i nm ty cs, (∀ l, cs = Some l → Forall P l) → P (ShapeNode i nm ty cs)) →
  ∀ t, P t.
Proof.
  intros step. fix IH 1. intros [i nm ty cs]. apply step.
  intros l E. destruct cs as [l'|]; [|discriminate]. injection E as <-.
  revert l'. fix IHl 1. intros [|c l']; constructor; [apply IH | apply IHl].
Qed.

Lemma fitsIn_mono t : ∀ k k', (k ≤ k')%nat → fitsIn k t = true → fitsIn k' t = true.
Proof.
  induction t as [i nm ty cs IH] using Shape_ind'. intros k k' Hle.
  destruct cs as [[|c l]|]; simpl; try (intros; assumption).
  destruct k as [|k]; [discriminate|]. destruct k' as [|k']; [lia|].
  specialize (IH _ eq_refl). intros H.
  apply andb_true_iff in H as [Hc Hl]. apply andb_true_iff.
  inversion IH as [|? ? IHc IHl]; subst. split; [apply (IHc k); [lia | exact Hc]|].
  rewrite forallb_forall in Hl |- *. intros x Hx.
  rewrite Forall_forall in IHl.
  apply (IHl x ltac:(apply list_elem_of_In; exact Hx) k k'); [lia|].
  apply Hl. exact Hx.
Qed.

Lemma truncate_fitsIn t : ∀ k, fitsIn k t = true → truncate k t = t.
Proof.
  induction t as [i nm ty cs IH] using Shape_ind'. intros k.
  destruct cs as [[|c l]|]; simpl; try discriminate.
  - destruct k as [|k]; [discriminate|]. specialize (IH _ eq_refl). intros H.
    apply andb_true_iff in H as [Hc Hl]. inversion IH as [|? ? IHc IHl]; subst.
    simpl. rewrite (IHc k Hc). do 3 f_equal.
    rewrite forallb_forall in Hl. rewrite Forall_forall in IHl.
    clear - Hl IHl. induction l as [|x l IHx]; simpl; [reflexivity|].
    rewrite (IHl x); [| left | apply Hl; left; reflexivity].
    f_equal. apply IHx; intros y Hy; [apply Hl | apply IHl]; right; exact Hy.
  - intros _. destruct k; reflexivity.
Qed.

Lemma height_pos node : (1 ≤ height node)%nat.
Proof. destruct node; simpl; lia. Qed.

(** The output of a call is no deeper than its node. *)
Lemma processNodeWithExtractors_fitsIn extractors options node :
  ∀ context r g,
    processNodeWithExtractors node extractors context options = Ok (Some r, g) →
    fitsIn (height node - 1) (shapeOf r) = true.
Proof.
  induction node as [node IH] using RawNode_ind'. intros context r g E.
  apply processNodeWithExtractors_cases in E as (_ & Hc). rewrite shapeOf_eq.
  destruct Hc as [[_ ->]|(keep & g0 & cs & _ & _ & _ & Hwalk & ->)]; [reflexivity|].
  destruct cs as [|c cs]; [reflexivity|].
  unfold rawChildren in Hwalk.
  destruct (n_children node) as [[|?|children]|] eqn:Hch; try discriminate.
  specialize (IH _ eq_refl).
  assert (HF : Forall (λ o, ∃ x, x ∈ children ∧ fitsIn (height x - 1) (shapeOf o) = true)
                 (c :: cs)).
  { eapply filterMapM_Forall; [|exact Hwalk]. rewrite Forall_forall in IH |- *.
    intros x Hx _ s o s' Ex. exists x. split; [exact Hx|]. eapply (IH x Hx). exact Ex. }
  assert (Hfit : ∀ o, o ∈ c :: cs → fitsIn (height node - 2) (shapeOf o) = true).
  { rewrite Forall_forall in HF. intros o Ho. destruct (HF o Ho) as (x & Hx & Hfx).
    pose proof (height_child _ _ _ Hch Hx). eapply fitsIn_mono; [|exact Hfx]. lia. }
  assert (Hk : ∃ k', (height node - 1 = S k')%nat ∧ (height node - 2 = k')%nat).
  { rewrite Forall_forall in HF. destruct (HF c ltac:(left)) as (x & Hx & _).
    pose proof (height_child _ _ _ Hch Hx). pose proof (height_pos x).
    exists (height node - 2)%nat. lia. }
  destruct Hk as (k' & -> & Hk'). rewrite Hk' in Hfit. simpl.
  apply andb_true_iff. split; [apply Hfit; left|].
  apply forallb_forall. intros t Ht. apply in_map_iff in Ht as (o & <- & Ho).
  apply Hfit. right. apply list_elem_of_In. exact Ho.
Qed.

Lemma extractFromDesign_truncate rawNodes extractors extractors' options d
    globalVars globalVars' out unbounded :
  maxDepth options = Some d →
  extractFromDesign rawNodes extractors options globalVars = Ok out →
  extractFromDesign rawNodes extractors' (withMaxDepth options None) globalVars'
    = Ok unbounded →
  map shapeOf (r_nodes out)
  = map (truncate (Z.to_nat d)) (map shapeOf (r_nodes unbounded)).
Proof.
  intros Hd E E'.
  assert (options = withMaxDepth options (Some d)) as Hopt.
  { destruct options. simpl in Hd. subst. reflexivity. }
  rewrite Hopt in E.
  apply extractFromDesign_inv in E. apply extractFromDesign_inv in E'.
  apply Forall2_map_eq. eapply filterMapM_rel; [|exact E|exact E'].
  rewrite Forall_forall. intros x _ _ s s' o o' t t' Ex Ex'.
  eapply (processNodeWithExtractors_truncate _ _ options d);
    [| |exact Ex|exact Ex']; simpl; lia.
Qed.

(** X8.  A depth bound that the input trees do not reach changes nothing in
    the structure of the output: when every input tree has at most
    [maxDepth + 1] levels, the pass emits the nodes the pass without depth
    bound emits, with the same nesting. *)
Theorem depth_bound_beyond_the_tree_is_no_bound
    (rawNodes : list RawNode) (extractors extractors' : list ExtractorFn)
    (options : TraversalOptions) (globalVars globalVars' : GlobalVars) (d : Z)
    (out unbounded : Extracted) :
  maxDepth options = Some d →
  Forall (λ node, (Z.of_nat (height node) ≤ d + 1)%Z) rawNodes →
  extractFromDesign rawNodes extractors options globalVars = Ok out →
  extractFromDesign rawNodes extractors' (withMaxDepth options None) globalVars'
    = Ok unbounded →
  map shapeOf (r_nodes out) = map shapeOf (r_nodes unbounded).
Proof.
  intros Hd Hh E E'.
  rewrite (extractFromDesign_truncate _ _ _ _ _ _ _ _ _ Hd E E').
  pose proof E' as E0. apply extractFromDesign_inv in E0.
  assert (HF : Forall (λ r, fitsIn (Z.to_nat d) (shapeOf r) = true) (r_nodes unbounded)).
  { eapply filterMapM_Forall; [|exact E0]. rewrite Forall_forall in Hh |- *.
    intros x Hx _ s r s' Ex. specialize (Hh x Hx).
    eapply fitsIn_mono; [|eapply processNodeWithExtractors_fitsIn; exact Ex]. lia. }
  clear - HF. induction HF as [|r rs Hr _ IH]; simpl; [reflexivity|].
  rewrite (truncate_fitsIn _ _ Hr), IH. reflexivity.
Qed.

(** * The engine as it runs *)

Lemma applyExtractorsRun_sound (extractors : list RunExtractorFn) node :
  ∀ result context x,
    applyExtractorsRun extractors node result context = Ok x →
    applyExtractors (map returned extractors) node result context = x.
Proof.
  induction extractors as [|e es IH]; intros result context x E; simpl in *.
  - injection E as <-. reflexivity.
  - inv_bind E. destruct a as [f g]. unfold returned at 1. rewrite Ha. apply IH. exact E.
Qed.

Lemma applyExtractorsRun_complete (extractors : list RunExtractorFn) node :
  Forall doesNotThrow extractors →
  ∀ result context,
    applyExtractorsRun extractors node result context
    = Ok (applyExtractors (map returned extractors) node result context).
Proof.
  induction 1 as [|e es He _ IH]; intros result context; simpl; [reflexivity|].
  unfold returned at 1. destruct (He node result context) as [[f g] ->]. simpl. apply IH.
Qed.

Lemma filterMapM_sound {A B S} (p : A → bool) (f f' : A → S → Res (option B * S)) xs :
  Forall (λ x, p x = true → ∀ s r, f x s = Ok r → f' x s = Ok r) xs →
  ∀ s r, filterMapM p f xs s = Ok r → filterMapM p f' xs s = Ok r.
Proof.
  induction 1 as [|x xs Hx _ IH]; intros s r E; [exact E|].
  rewrite filterMapM_cons in E |- *. destruct (p x) eqn:Hp; [|apply IH; exact E].
  inv_bind E. destruct a as [o s1]. rewrite (Hx eq_refl _ _ Ha), Ok_bind.
  inv_bind E. destruct a as [rs s2]. rewrite (IH _ _ Ha0), Ok_bind. exact E.
Qed.

(** Whatever the stack and the extractors, a call that returns returns
    what the engine over values returns with the values the extractors
    returned. *)
Lemma processNodeWithExtractorsRun_sound extractors options :
  ∀ stack node context r,
    processNodeWithExtractorsRun stack node extractors context options = Ok r →
    processNodeWithExtractors node (map returned extractors) context options = Ok r.
Proof.
  induction stack as [|stack IH]; intros node context r E; [discriminate|].
  rewrite processNodeWithExtractors_eq. simpl in E.
  destruct (shouldProcessNode node options); simpl negb in *; cbv iota in *; [|exact E].
  inv_bind E. destruct a as [result g]. rewrite (applyExtractorsRun_sound _ _ _ _ _ Ha).
  destruct (shouldTraverseChildren node context options); [|exact E].
  destruct (n_children node) as [[|[|]|[|c children]]|]; try exact E.
  inv_bind E. rename a into keep. rewrite Ha0, Ok_bind. inv_bind E.
  rewrite (filterMapM_sound _ _
             (λ child g', processNodeWithExtractors child (map returned extractors)
                            (childContext node context g') options) _
             ltac:(rewrite Forall_forall; intros x _ _ s r'; apply IH) _ _ Ha1), Ok_bind.
  exact E.
Qed.

(** With extractors that do not throw and a stack as deep as the tree, the
    call is the call of the engine over values. *)
Lemma processNodeWithExtractorsRun_complete extractors options :
  Forall doesNotThrow extractors →
  ∀ (stack : nat) node context,
    (height node ≤ stack)%nat →
    processNodeWithExtractorsRun stack node extractors context options
    = processNodeWithExtractors node (map returned extractors) context options.
Proof.
  intros Hret. induction stack as [|stack IH]; intros node context Hh.
  { destruct node; simpl in Hh; lia. }
  rewrite processNodeWithExtractors_eq. simpl processNodeWithExtractorsRun.
  destruct (shouldProcessNode node options); simpl negb; cbv iota; [|reflexivity].
  rewrite (applyExtractorsRun_complete _ _ Hret), Ok_bind.
  destruct (applyExtractors (map returned extractors) node (baseResult node) context)
    as [result g].
  destruct (shouldTraverseChildren node context options); [|reflexivity].
  destruct (n_children node) as [[|[|]|[|c children]]|] eqn:Hch; try reflexivity.
  destruct (childrenToProcess node options) as [keep|e]; [|reflexivity].
  rewrite !Ok_bind.
  rewrite (filterMapM_ext _ _
             (λ child g', processNodeWithExtractors child (map returned extractors)
                            (childContext node context g') options)); [reflexivity|].
  rewrite Forall_forall. intros x Hx _ s. apply IH.
  pose proof (height_child _ _ _ Hch Hx). lia.
Qed.

Lemma extractFromDesignRun_sound stack rawNodes extractors options globalVars out :
  extractFromDesignRun stack rawNodes extractors options globalVars = Ok out →
  extractFromDesign rawNodes (map returned extractors) options globalVars = Ok out.
Proof.
  unfold extractFromDesignRun, extractFromDesign. intros E. inv_bind E.
  rewrite (filterMapM_sound _ _
             (λ node g, processNodeWithExtractors node (map returned extractors)
                (withGlobalVars {| c_globalVars := globalVars; c_currentDepth := 0;
                                   c_options := options; c_parent := None |} g) options) _
             ltac:(rewrite Forall_forall; intros x _ _ s r;
                   apply processNodeWithExtractorsRun_sound) _ _ Ha).
  exact E.
Qed.

Lemma extractFromDesignRun_complete (stack : nat) rawNodes extractors options globalVars :
  Forall doesNotThrow extractors →
  Forall (λ node, (height node ≤ stack)%nat) rawNodes →
  extractFromDesignRun stack rawNodes extractors options globalVars
  = extractFromDesign rawNodes (map returned extractors) options globalVars.
Proof.
  intros Hret Hh. unfold extractFromDesignRun, extractFromDesign.
  rewrite (filterMapM_ext _ _
             (λ node g, processNodeWithExtractors node (map returned extractors)
                (withGlobalVars {| c_globalVars := globalVars; c_currentDepth := 0;
                                   c_options := options; c_parent := None |} g) options));
    [reflexivity|].
  rewrite Forall_forall in Hh |- *. intros x Hx _ s.
  apply processNodeWithExtractorsRun_complete; [exact Hret | apply Hh; exact Hx].
Qed.




(** X6.  With [children] properties that are arrays, extractors that do not
    throw and a call stack as deep as the tree, the engine can only throw
    at an INSTANCE node walked without [includeFullInstanceData]: when the
    option is set, or when no input node is an INSTANCE, the pass returns,
    whatever the overrides hold. *)
Theorem engine_returns_outside_instance_pruning
    (stack : nat) (rawNodes : list RawNode) (extractors : list RunExtractorFn)
    (options : TraversalOptions) (globalVars : GlobalVars) :
  Forall doesNotThrow extractors →
  forallb childrenAreArrays rawNodes = true →
  Forall (λ node, (height node ≤ stack)%nat) rawNodes →
  includeFullInstanceData options = true ∨ forallb noInstance rawNodes = true →
  returns (extractFromDesignRun stack rawNodes extractors options globalVars).
Proof.
  intros Hret Harr Hh Hplain.
  rewrite (extractFromDesignRun_complete _ _ _ _ _ Hret Hh).
  apply extractFromDesign_returns_plain; assumption.
Qed.

(** X1.  When two passes over the same input with the same options both
    return, they emit the same nodes, in the same order and nesting, with
    the same base fields, whatever their extractor lists, the style tables
    they start from and the stacks they run on. *)
Theorem structure_is_independent_of_extractors
    (stack stack' : nat) (rawNodes : list RawNode)
    (extractors extractors' : list RunExtractorFn)
    (options : TraversalOptions) (globalVars globalVars' : GlobalVars)
    (out out' : Extracted) :
  extractFromDesignRun stack rawNodes extractors options globalVars = Ok out →
  extractFromDesignRun stack' rawNodes extractors' options globalVars' = Ok out' →
  map shapeOf (r_nodes out) = map shapeOf (r_nodes out').
Proof.
  intros E E'. apply extractFromDesignRun_sound in E, E'.
  pose proof (extractFromDesign_endAlike rawNodes (map returned extractors)
                (map returned extractors') options globalVars globalVars') as Hsame.
  rewrite E, E' in Hsame. injection Hsame as Hsame. exact Hsame.
Qed.


(** * Further properties of the error categories and the retry wrapper *)

Lemma categorizeError_cases (error : ErrorValue) :
  let lower := toLowerCase (e_text error) in
  let msg := e_text error in
  categorizeError error =
  match statusOf error with
  | Some 401%Z => newFigmaContextError msg AUTHENTICATION_ERROR (Some 401%Z) None
  | Some 403%Z => newFigmaContextError msg PERMISSION_ERROR (Some 403%Z) None
  | Some 404%Z => newFigmaContextError msg NOT_FOUND_ERROR (Some 404%Z) None
  | Some 429%Z => newFigmaContextError msg RATE_LIMIT_ERROR (Some 429%Z) (Some true)
  | st =>
      if match st with Some c => (500 <=? c)%Z | None => false end then
        newFigmaContextError msg API_ERROR st (Some true)
      else if mentionsTransient msg then
        newFigmaContextError msg
          (if includes "timeout" lower then TIMEOUT_ERROR else NETWORK_ERROR) None None
      else if includes "json" lower || includes "parse" lower || includes "syntax" lower then
        newFigmaContextError msg PARSING_ERROR None (Some false)
      else newFigmaContextError msg UNKNOWN_ERROR st None
  end.
Proof.
  intros lower msg. unfold categorizeError. cbv zeta. fold (statusOf error).
  fold lower. fold msg. unfold mentionsTransient. fold lower.
  destruct (statusOf error) as [c|]; [|reflexivity].
  destruct (decide (c = 401%Z)) as [->|H401]; [reflexivity|].
  destruct (decide (c = 403%Z)) as [->|H403]; [reflexivity|].
  destruct (decide (c = 404%Z)) as [->|H404]; [reflexivity|].
  destruct (decide (c = 429%Z)) as [->|H429]; [reflexivity|].
  rewrite !(bool_decide_eq_false_2 (Some c = Some _)) by congruence. simpl orb. cbv iota.
  repeat match goal with
         | |- context [match c with _ => _ end] => destruct c as [|p|p]
         | |- context [match ?p with xH => _ | _ => _ end] => is_var p; destruct p
         end; try reflexivity; try congruence.
Qed.

Ltac categorize_cases error :=
  unfold categorizeError; cbv zeta; fold (statusOf error);
  change (includes "network" (toLowerCase (e_text error))
          || includes "timeout" (toLowerCase (e_text error))
          || includes "connection" (toLowerCase (e_text error)))
    with (mentionsTransient (e_text error));
  let c := fresh "c" in let Hs := fresh "Hs" in
  destruct (statusOf error) as [c|] eqn:Hs;
  repeat case_bool_decide; simplify_eq; simpl orb; cbv iota;
  try (destruct (Z.leb_spec 500 c)); cbv iota;
  destruct (mentionsTransient (e_text error)); cbv iota;
  try (destruct (includes "timeout" (toLowerCase (e_text error))));
  try (destruct (includes "json" (toLowerCase (e_text error))
                || includes "parse" (toLowerCase (e_text error))
                || includes "syntax" (toLowerCase (e_text error))));
  cbv iota; simpl.

(** X9.  A categorized error is retryable exactly when its status (the
    [status] of the thrown value, or its [statusCode] when [status] is
    absent or 0) is 429 or at least 500, or when the status is none of 401,
    403 and 404 and the message mentions network, timeout or connection. *)
Theorem categorized_error_is_retryable_iff (error : ErrorValue) :
  fe_retryable (categorizeError error) = true ↔
    statusOf error = Some 429%Z
    ∨ (∃ c, statusOf error = Some c ∧ (500 ≤ c)%Z)
    ∨ (statusOf error ≠ Some 401%Z ∧ statusOf error ≠ Some 403%Z
       ∧ statusOf error ≠ Some 404%Z ∧ mentionsTransient (e_text error) = true).
Proof.
  categorize_cases error; split; intros Hret; try discriminate; try reflexivity;
    try (destruct Hret as [Hret|[(c' & Hret & Hc)|(Hn1 & Hn3 & Hn4 & Hm)]];
         simplify_eq; try discriminate; try lia; try congruence);
    try (right; left; eexists; split; [reflexivity | lia]);
    try (left; reflexivity);
    try (right; right; repeat split; congruence).
Qed.

(** X10.  For a categorized error the retryable flag is decided by the type
    alone: it is set exactly for the types NETWORK, TIMEOUT, RATE_LIMIT and
    API, which is the list of the default retry configuration, so under
    that configuration the flag alone decides a retry.  The type is never
    VALIDATION, and the message is that of the thrown value. *)
Theorem categorized_error_retry_follows_type (error : ErrorValue) :
  let e := categorizeError error in
  fe_retryable e = isRetryableByDefault (fe_type e)
  ∧ retryableUnder DEFAULT_RETRY_CONFIG e = fe_retryable e
  ∧ fe_type e ≠ VALIDATION_ERROR
  ∧ fe_message e = e_text error.
Proof.
  cbv zeta. unfold retryableUnder.
  categorize_cases error; repeat split; try reflexivity; discriminate.
Qed.

Section RetryMore.
Context {T W : Type}.
Variable operation : W → Settled T * W.
Variable cfg : RetryConfig.

Lemma retryLoop_Some_lastError (remaining : nat) :
  ∀ attempt e w,
    (retryLoop operation cfg remaining attempt (Some e) w).1 ≠ Threw None.
Proof.
  induction remaining as [|remaining IH]; intros attempt e w; simpl; [discriminate|].
  destruct (operation w) as [[v|error] w']; simpl; [discriminate|].
  destruct (asFigmaContextError error) as [e'|x]; simpl; [|discriminate].
  destruct (negb _); simpl; [discriminate | apply IH].
Qed.

Lemma retryLoop_first_call (remaining : nat) attempt lastError w :
  (retryLoop operation cfg (S remaining) attempt lastError w).1 ≠ Threw None
  ∧ ∃ k : nat, (1 ≤ k ≤ S remaining)%nat
      ∧ (retryLoop operation cfg (S remaining) attempt lastError w).2
        = worldAfter operation k w.
Proof.
  simpl. destruct (operation w) as [[v|error] w'] eqn:Hop; simpl.
  - split; [discriminate|]. exists 1%nat. simpl. rewrite Hop. split; [lia | reflexivity].
  - destruct (asFigmaContextError error) as [e|x]; simpl.
    2:{ split; [discriminate|]. exists 1%nat. simpl. rewrite Hop.
        split; [lia | reflexivity]. }
    destruct (negb _); simpl.
    + split; [discriminate|]. exists 1%nat. simpl. rewrite Hop. split; [lia | reflexivity].
    + split; [apply retryLoop_Some_lastError|].
      destruct (retryLoop_calls operation cfg remaining (attempt + 1)%Z (Some e) w')
        as (k & Hk & ->).
      exists (S k). simpl. rewrite Hop. split; [lia | reflexivity].
Qed.

End RetryMore.

(** X11.  With [maxAttempts] at most 0 [withRetry] does not call the
    operation and throws [undefined]; with [maxAttempts] at least 1 it
    calls the operation at least once and never throws [undefined]. *)
Theorem withRetry_without_attempts {T W : Type}
    (operation : W → Settled T * W) (config : PartialRetryConfig) (w : W) :
  ((maxAttempts (finalConfig config) ≤ 0)%Z →
   withRetry operation config w = (Threw None, w))
  ∧ ((0 < maxAttempts (finalConfig config))%Z →
     (withRetry operation config w).1 ≠ Threw None
     ∧ ∃ k : nat, (1 ≤ k)%nat ∧ (Z.of_nat k ≤ maxAttempts (finalConfig config))%Z
         ∧ (withRetry operation config w).2 = worldAfter operation k w).
Proof.
  unfold withRetry. split.
  - intros Hle. replace (Z.to_nat (maxAttempts (finalConfig config))) with 0%nat by lia.
    reflexivity.
  - intros Hpos.
    destruct (Z.to_nat (maxAttempts (finalConfig config))) as [|n] eqn:Hn; [lia|].
    destruct (retryLoop_first_call operation (finalConfig config) n 1%Z None w)
      as (Hnone & k & Hk & Hw).
    split; [exact Hnone|]. exists k. split; [lia|]. split; [lia | exact Hw].
Qed.

(** * Properties of fetching with a curl fallback *)

Lemma categorizeError_message (error : ErrorValue) :
  fe_message (categorizeError error) = e_text error.
Proof. categorize_cases error; reflexivity. Qed.

Lemma statusOf_newError message : statusOf (newError message) = None.
Proof. reflexivity. Qed.

(** An error whose thrown value has no status is categorized by its text
    alone, into one of four types, and carries no status code. *)
Lemma categorizeError_without_status (error : ErrorValue) :
  statusOf error = None →
  fe_statusCode (categorizeError error) = None
  ∧ fe_type (categorizeError error)
    ∈ [NETWORK_ERROR; TIMEOUT_ERROR; PARSING_ERROR; UNKNOWN_ERROR]
  ∧ fe_retryable (categorizeError error) = mentionsTransient (e_text error).
Proof.
  intros Hnone. categorize_cases error; try congruence;
    (split; [reflexivity|]); (split; [|reflexivity]); set_solver.
Qed.

Section FetchProperties.
Context {T W : Type}.
Variable fetch : string → RequestOptions → W → FetchSettled T * W.
Variable execAsync : string → W → ExecSettled * W.
Variable JSON_parse : string → option T.

Lemma attemptCurlFallback_rejects url options originalError w err w2 :
  attemptCurlFallback execAsync JSON_parse url options originalError w
    = (Rejected err, w2) →
  statusOf originalError = None →
  ∃ e, err = ThrownFigma e ∧ fe_statusCode e = None
       ∧ fe_type e ∈ [NETWORK_ERROR; TIMEOUT_ERROR; PARSING_ERROR; UNKNOWN_ERROR].
Proof.
  unfold attemptCurlFallback. intros E Hnone.
  destruct (execAsync (curlCommand url options) w) as [[stdout stderr|curlError] w'].
  - destruct (truthy stderr && _).
    + injection E as <- _. eexists. split; [reflexivity|].
      destruct (categorizeError_without_status _
                  (statusOf_newError ("Curl command failed: " ++ stderr))) as (? & ? & _).
      auto.
    + destruct (negb (truthy stdout)).
      * injection E as <- _. eexists. split; [reflexivity|]. split; [reflexivity|].
        set_solver.
      * destruct (JSON_parse stdout); [discriminate|].
        injection E as <- _. eexists. split; [reflexivity|]. split; [reflexivity|].
        set_solver.
  - injection E as <- _. eexists. split; [reflexivity|].
    destruct (categorizeError_without_status _ Hnone) as (? & ? & _). auto.
Qed.

(** X13.  The HTTP status never reaches the error category.  Unless the
    value [fetch] itself (or [response.json()]) rejected with carries a
    status, every failure of an attempt is a [FigmaContextError] without
    status code whose type is NETWORK, TIMEOUT, PARSING or UNKNOWN: never
    AUTHENTICATION, PERMISSION, NOT_FOUND, RATE_LIMIT or API, whatever the
    status of the response. *)
Theorem fetch_failures_carry_no_http_category url options w err w2 :
  fetchAttempt fetch execAsync JSON_parse url options w = (Rejected err, w2) →
  (∀ e0, fetchErrorAt fetch url options w = Some e0 → statusOf e0 = None) →
  ∃ e, err = ThrownFigma e ∧ fe_statusCode e = None
       ∧ fe_type e ∈ [NETWORK_ERROR; TIMEOUT_ERROR; PARSING_ERROR; UNKNOWN_ERROR].
Proof.
  unfold fetchAttempt, fetchErrorAt. intros E Hnone.
  destruct (fetch url options w) as [[response|fetchError] w1]; simpl in Hnone.
  - destruct (rsp_ok response); simpl in E.
    + destruct (rsp_json response) as [data|fetchError]; [discriminate|].
      eapply attemptCurlFallback_rejects; [exact E | apply Hnone; reflexivity].
    + injection E as <- _. eexists. split; [reflexivity|].
      destruct (categorizeError_without_status _
                  (statusOf_newError ("HTTP " ++ pretty (rsp_status response) ++ ": "
                                      ++ rsp_statusText response))) as (? & ? & _).
      auto.
  - eapply attemptCurlFallback_rejects; [exact E | apply Hnone; reflexivity].
Qed.

(** X14.  A response that is not ok is not retried on account of its
    status: when the text [HTTP <status>: <statusText>] mentions none of
    network, timeout and connection, [fetchWithRetry] throws after this one
    fetch, without running curl, an error that is not retryable, be the
    status 429 or 503. *)
Theorem non_ok_response_is_not_retried url options w response w1 :
  fetch url options w = (FetchResolved response, w1) →
  rsp_ok response = false →
  let message :=
    "HTTP " ++ pretty (rsp_status response) ++ ": " ++ rsp_statusText response in
  mentionsTransient message = false →
  ∃ e, fetchWithRetry fetch execAsync JSON_parse url options w = (Threw (Some e), w1)
       ∧ fe_message e = message ∧ fe_retryable e = false ∧ fe_statusCode e = None.
Proof.
  intros Hfetch Hok message Hquiet.
  set (e := categorizeError (newError message)).
  assert (Htext : e_text (newError message) = message) by reflexivity.
  destruct (categorizeError_without_status _ (statusOf_newError message))
    as (Hcode & _ & Hretry).
  rewrite Htext, Hquiet in Hretry.
  assert (Hsettle : fetchAttempt fetch execAsync JSON_parse url options w = (Rejected (ThrownFigma e), w1)).
  { unfold fetchAttempt. rewrite Hfetch, Hok. reflexivity. }
  exists e. split; [|split; [|split]]; try assumption.
  - unfold fetchWithRetry, withRetry.
    rewrite (retryLoop_stops (fetchAttempt fetch execAsync JSON_parse url options) (finalConfig noConfig) 0).
    + unfold outcomeAt, settles. simpl. rewrite Hsettle. reflexivity.
    + reflexivity.
    + simpl. lia.
    + intros i Hi. lia.
    + intros error e' He Hcat. right. unfold settles in He. simpl in He.
      rewrite Hsettle in He. simpl in He. injection He as <-.
      injection Hcat as <-. unfold retryableUnder, e. rewrite Hretry. reflexivity.
  - apply categorizeError_message.
Qed.

(** X15.  Curl is a fallback for a failed fetch only, and its output is
    taken on strict terms.  An attempt returns [data] exactly when either
    the response is ok and its body parses to [data], with no curl run; or
    [fetch] or the parsing of the body failed, and then curl of
    [curlCommand url options] exited normally with a non-empty standard
    output that [JSON.parse] reads as [data], and with a standard error that
    is empty or mentions none of error, fail, 401, 403 and 404. *)
Theorem fetch_attempt_returns_iff url options w data w2 :
  fetchAttempt fetch execAsync JSON_parse url options w = (Resolved data, w2) ↔
    (∃ response, fetch url options w = (FetchResolved response, w2)
                 ∧ rsp_ok response = true ∧ rsp_json response = BodyParsed data)
    ∨ (∃ e0 stdout stderr,
         fetchErrorAt fetch url options w = Some e0
         ∧ execAsync (curlCommand url options) (fetch url options w).2
           = (ExecResolved stdout stderr, w2)
         ∧ stdout ≠ "" ∧ JSON_parse stdout = Some data
         ∧ (stderr = "" ∨ stderrAlarming stderr = false)).
Proof.
  assert (Hcurl : ∀ e0 w1,
            attemptCurlFallback execAsync JSON_parse url options e0 w1 = (Resolved data, w2) ↔
            ∃ stdout stderr,
              execAsync (curlCommand url options) w1 = (ExecResolved stdout stderr, w2)
              ∧ stdout ≠ "" ∧ JSON_parse stdout = Some data
              ∧ (stderr = "" ∨ stderrAlarming stderr = false)).
  { intros e0 w1. unfold attemptCurlFallback.
    destruct (execAsync (curlCommand url options) w1) as [[stdout stderr|curlError] w'].
    2:{ split; [discriminate | intros (? & ? & [=] & _)]. }
    split.
    - destruct stderr as [|c stderr], stdout as [|c' stdout]; simpl;
        try discriminate;
        try (destruct (stderrAlarming (String c stderr)) eqn:Ha; [discriminate|]);
        (destruct (JSON_parse (String c' stdout)) as [v|] eqn:Hp; [|discriminate]);
        intros [= <- <-]; eexists _, _; (split; [reflexivity|]);
        (split; [discriminate|]); (split; [exact Hp|]); auto.
    - intros (so & se & [= <- <- <-] & Hne & Hp & Herr).
      destruct stdout as [|c' stdout]; [congruence|]. rewrite Hp.
      destruct Herr as [->|Ha]; [reflexivity|].
      destruct stderr; [reflexivity|]. simpl truthy. rewrite Ha. reflexivity. }
  unfold fetchAttempt, fetchErrorAt.
  destruct (fetch url options w) as [[response|fetchError] w1];
    simpl fst; simpl snd; cbv beta iota.
  - destruct (rsp_ok response) eqn:Hok; simpl negb; cbv iota.
    + destruct (rsp_json response) as [d|fetchError] eqn:Hj.
      * split.
        -- intros [= <- <-]. left. exists response. auto.
        -- intros [(r & Hr & _ & Hd)|(e0 & so & se & He0 & _)].
           ++ injection Hr as <- <-. rewrite Hj in Hd. injection Hd as <-. reflexivity.
           ++ discriminate.
      * rewrite Hcurl. split.
        -- intros (so & se & H). right. exists fetchError, so, se. auto.
        -- intros [(r & Hr & _ & Hd)|(e0 & so & se & _ & H)].
           ++ injection Hr as <- <-. congruence.
           ++ eauto.
    + split; [discriminate|].
      intros [(r & Hr & Hok' & _)|(e0 & so & se & He0 & _)].
      * injection Hr as <- <-. congruence.
      * discriminate.
  - rewrite Hcurl. split.
    + intros (so & se & H). right. exists fetchError, so, se. auto.
    + intros [(r & Hr & _)|(e0 & so & se & _ & H)]; [discriminate | eauto].
Qed.

(** X16.  When the fallback cannot run curl, the error of the attempt is
    the categorized error of the fetch: its message, type, status code and
    retryable flag are those of categorizing the value [fetch] (or the
    parsing of the body) rejected with, and what curl failed with decides
    none of them (the code only records its message in the context of the
    error).  When that error is not retryable, [fetchWithRetry] throws it
    after this one attempt. *)
Theorem curl_failure_reports_the_fetch_error url options w e0 curlError w2 :
  fetchErrorAt fetch url options w = Some e0 →
  execAsync (curlCommand url options) (fetch url options w).2
    = (ExecRejected curlError, w2) →
  fetchAttempt fetch execAsync JSON_parse url options w
    = (Rejected (ThrownFigma (categorizeError e0)), w2)
  ∧ (fe_retryable (categorizeError e0) = false →
     fetchWithRetry fetch execAsync JSON_parse url options w
     = (Threw (Some (categorizeError e0)), w2)).
Proof.
  intros He0 Hexec.
  assert (Hsettle : fetchAttempt fetch execAsync JSON_parse url options w
                    = (Rejected (ThrownFigma (categorizeError e0)), w2)).
  { unfold fetchAttempt, fetchErrorAt, attemptCurlFallback in *.
    destruct (fetch url options w) as [[response|fetchError] w1]; simpl in *.
    - destruct (rsp_ok response); [|discriminate]. simpl.
      destruct (rsp_json response); [discriminate|]. injection He0 as ->.
      rewrite Hexec. reflexivity.
    - injection He0 as ->. rewrite Hexec. reflexivity. }
  split; [exact Hsettle|]. intros Hnon.
  unfold fetchWithRetry, withRetry.
  rewrite (retryLoop_stops (fetchAttempt fetch execAsync JSON_parse url options)
             (finalConfig noConfig) 0).
  - unfold outcomeAt, settles. simpl. rewrite Hsettle. reflexivity.
  - reflexivity.
  - simpl. lia.
  - intros i Hi. lia.
  - intros error e' He Hcat. right. unfold settles in He. simpl in He.
    rewrite Hsettle in He. simpl in He. injection He as <-.
    injection Hcat as <-. unfold retryableUnder. rewrite Hnon. reflexivity.
Qed.

End FetchProperties.

(** * The further properties on the sample inputs *)

Lemma output_embeds_in_input_witness :
  extractFromDesign sample_hidden [] no_options empty_table = Ok sample_hidden_out
  ∧ Forall2 embeds
      (List.filter (λ node, shouldProcessNode node no_options) sample_hidden)
      (r_nodes sample_hidden_out).
Proof.
  split; [vm_compute; reflexivity|].
  apply (output_embeds_in_input sample_hidden [] no_options empty_table sample_hidden_out).
  vm_compute. reflexivity.
Defined.

Lemma output_is_not_larger_than_input_witness :
  extractFromDesign sample_hidden [] no_options empty_table = Ok sample_hidden_out
  ∧ (foldr Nat.add 0 (map outSize (r_nodes sample_hidden_out))
     ≤ foldr Nat.add 0 (map rawSize sample_hidden))%nat.
Proof.
  split; [vm_compute; reflexivity|].
  apply (output_is_not_larger_than_input sample_hidden [] no_options empty_table
           sample_hidden_out).
  vm_compute. reflexivity.
Defined.

Lemma custom_filter_prunes_subtrees_witness :
  extractFromDesign sample_deep [] sample_skip_two empty_table = Ok sample_skip_two_out
  ∧ ∀ root k o, root ∈ r_nodes sample_skip_two_out → occursAt k root o →
      ∃ raw n, raw ∈ sample_deep
               ∧ pathAt (λ x, negb (String.eqb (n_id x) "2") = true) k raw n
               ∧ baseOf n o.
Proof.
  split; [vm_compute; reflexivity|].
  apply (custom_filter_prunes_subtrees sample_deep [] sample_skip_two empty_table
           sample_skip_two_out (λ node, negb (String.eqb (n_id node) "2"))).
  - reflexivity.
  - vm_compute. reflexivity.
Defined.

Lemma unpruned_node_keeps_all_retained_children_witness :
  processNodeWithExtractors
    (sample_frame "1" None [ sample_leaf "2" (Some false); sample_leaf "5" None ]) []
    (root_context depth_one) depth_one
  = Ok (Some (sample_output "1" "frame 1" "FRAME"
                (Some [ sample_output "5" "leaf 5" "RECTANGLE" None ])), empty_table)
  ∧ Forall2 baseOf
      (List.filter (λ child, shouldProcessNode child depth_one)
         [ sample_leaf "2" (Some false); sample_leaf "5" None ])
      [ sample_output "5" "leaf 5" "RECTANGLE" None ].
Proof.
  split; [vm_compute; reflexivity|].
  apply (unpruned_node_keeps_all_retained_children
           (sample_frame "1" None [ sample_leaf "2" (Some false); sample_leaf "5" None ]) []
           (root_context depth_one) depth_one
           (sample_output "1" "frame 1" "FRAME"
              (Some [ sample_output "5" "leaf 5" "RECTANGLE" None ])) empty_table).
  - left. discriminate.
  - intros d [= <-]. simpl. lia.
  - vm_compute. reflexivity.
Defined.

Lemma style_table_is_only_written_by_extractors_witness :
  extractFromDesign sample_hidden [ effectOf sample_extractor ] no_options empty_table
  = Ok sample_hidden_styled
  ∧ stylesAreStrings (r_globalVars sample_hidden_styled).
Proof.
  split; [vm_compute; reflexivity|].
  apply (style_table_is_only_written_by_extractors stylesAreStrings sample_hidden
           [ effectOf sample_extractor ] no_options empty_table sample_hidden_styled).
  - constructor; [|constructor]. intros n result context Hc.
    apply map_Forall_insert_2; [eexists; reflexivity | exact Hc].
  - apply map_Forall_empty.
  - vm_compute. reflexivity.
Defined.

Lemma depth_bound_beyond_the_tree_is_no_bound_witness :
  maxDepth depth_two = Some 2%Z
  ∧ Forall (λ node, (Z.of_nat (height node) ≤ 2 + 1)%Z) sample_deep
  ∧ extractFromDesign sample_deep [] depth_two empty_table = Ok sample_deep_unbounded
  ∧ map shapeOf (r_nodes sample_deep_unbounded)
    = map shapeOf (r_nodes sample_deep_unbounded).
Proof.
  assert (Hh : Forall (λ node, (Z.of_nat (height node) ≤ 2 + 1)%Z) sample_deep)
    by (constructor; [vm_compute; discriminate | constructor]).
  split; [reflexivity|]. split; [exact Hh|]. split; [vm_compute; reflexivity|].
  apply (depth_bound_beyond_the_tree_is_no_bound sample_deep [] [] depth_two
           empty_table empty_table 2%Z sample_deep_unbounded sample_deep_unbounded).
  - reflexivity.
  - exact Hh.
  - vm_compute. reflexivity.
  - vm_compute. reflexivity.
Defined.

Lemma withRetry_without_attempts_witness :
  withRetry sample_operation no_attempts 0%nat = (Threw None, 0%nat)
  ∧ (withRetry sample_not_found noConfig 0%nat).1 ≠ Threw None.
Proof.
  split.
  - apply (proj1 (withRetry_without_attempts sample_operation no_attempts 0%nat)).
    simpl. lia.
  - apply (proj2 (withRetry_without_attempts sample_not_found noConfig 0%nat)).
    simpl. lia.
Defined.

Lemma fetch_failures_carry_no_http_category_witness :
  fetchAttempt sample_fetch_unavailable sample_exec sample_parse "https://api.figma.com/v1/files/k"
    sample_request 0%nat
  = (Rejected (ThrownFigma (newFigmaContextError "HTTP 503: Service Unavailable"
                              UNKNOWN_ERROR None None)), 1%nat)
  ∧ ∃ e, ThrownFigma (newFigmaContextError "HTTP 503: Service Unavailable"
                        UNKNOWN_ERROR None None) = ThrownFigma e
         ∧ fe_statusCode e = None
         ∧ fe_type e ∈ [NETWORK_ERROR; TIMEOUT_ERROR; PARSING_ERROR; UNKNOWN_ERROR].
Proof.
  split; [vm_compute; reflexivity|].
  apply (fetch_failures_carry_no_http_category sample_fetch_unavailable sample_exec
           sample_parse "https://api.figma.com/v1/files/k" sample_request 0%nat _ 1%nat).
  - vm_compute. reflexivity.
  - intros e0 He0. vm_compute in He0. discriminate.
Defined.

Lemma non_ok_response_is_not_retried_witness :
  ∃ e, fetchWithRetry sample_fetch_unavailable sample_exec sample_parse
         "https://api.figma.com/v1/files/k" sample_request 0%nat
       = (Threw (Some e), 1%nat)
       ∧ fe_message e = "HTTP 503: Service Unavailable"
       ∧ fe_retryable e = false ∧ fe_statusCode e = None.
Proof.
  apply (non_ok_response_is_not_retried sample_fetch_unavailable sample_exec sample_parse
           "https://api.figma.com/v1/files/k" sample_request 0%nat
           {| rsp_ok := false; rsp_status := 503; rsp_statusText := "Service Unavailable";
              rsp_json := BodyParsed "{}" |} 1%nat).
  - reflexivity.
  - reflexivity.
  - vm_compute. reflexivity.
Defined.

Lemma fetch_attempt_returns_iff_witness :
  fetchAttempt sample_fetch_rejects sample_exec sample_parse
    "https://api.figma.com/v1/files/k" sample_request 0%nat
  = (Resolved "{}", 2%nat).
Proof.
  apply (proj2 (fetch_attempt_returns_iff sample_fetch_rejects sample_exec sample_parse
                  "https://api.figma.com/v1/files/k" sample_request 0%nat "{}" 2%nat)).
  right. eexists _, "{}", "100% done".
  split; [reflexivity|]. split; [reflexivity|]. split; [discriminate|].
  split; [reflexivity|]. right. vm_compute. reflexivity.
Defined.

Lemma curl_failure_reports_the_fetch_error_witness :
  fetchWithRetry sample_fetch_rejects sample_exec_rejects sample_parse
    "https://api.figma.com/v1/files/k" sample_request 0%nat
  = (Threw (Some (newFigmaContextError "fetch failed" UNKNOWN_ERROR None None)), 2%nat).
Proof.
  apply (proj2 (curl_failure_reports_the_fetch_error sample_fetch_rejects
                  sample_exec_rejects sample_parse "https://api.figma.com/v1/files/k"
                  sample_request 0%nat
                  {| e_status := None; e_statusCode := None; e_text := "fetch failed" |}
                  {| e_status := None; e_statusCode := None;
                     e_text := "curl: command not found" |}
                  2%nat eq_refl eq_refl)).
  vm_compute. reflexivity.
Defined.



Lemma engine_returns_outside_instance_pruning_witness :
  includeFullInstanceData full_instances = true
  ∧ forallb childrenAreArrays [ sample_no_id ] = true
  ∧ Forall (λ node, (height node ≤ 3)%nat) [ sample_no_id ]
  ∧ returns (extractFromDesignRun 3 [ sample_no_id ] [] full_instances empty_table).
Proof.
  assert (Hh : Forall (λ node, (height node ≤ 3)%nat) [ sample_no_id ])
    by (repeat constructor; vm_compute; lia).
  split; [reflexivity|]. split; [reflexivity|]. split; [exact Hh|].
  apply (engine_returns_outside_instance_pruning 3 [ sample_no_id ] [] full_instances
           empty_table).
  - constructor.
  - reflexivity.
  - exact Hh.
  - left. reflexivity.
Defined.

Lemma structure_is_independent_of_extractors_witness :
  extractFromDesignRun 3 sample_hidden [] no_options empty_table = Ok sample_hidden_out
  ∧ extractFromDesignRun 5 sample_hidden [ returning (effectOf sample_extractor) ]
      no_options empty_table = Ok sample_hidden_styled
  ∧ map shapeOf (r_nodes sample_hidden_out) = map shapeOf (r_nodes sample_hidden_styled).
Proof.
  assert (E : extractFromDesignRun 3 sample_hidden [] no_options empty_table
              = Ok sample_hidden_out) by (vm_compute; reflexivity).
  assert (E' : extractFromDesignRun 5 sample_hidden
                 [ returning (effectOf sample_extractor) ] no_options empty_table
               = Ok sample_hidden_styled) by (vm_compute; reflexivity).
  split; [exact E|]. split; [exact E'|].
  exact (structure_is_independent_of_extractors 3 5 sample_hidden []
           [ returning (effectOf sample_extractor) ] no_options empty_table empty_table
           sample_hidden_out sample_hidden_styled E E').
Defined.
